(** * Universal decorators: the bounded cache, the key builder, the
    behaviour wrappers and the composer of [index.js], embedded as Rocq
    functions, with the properties the design document states about them. *)

From Stdlib Require Import ZArith List String Ascii Bool Lia DecimalString.
From Stdlib Require Import Sorting.Sorted.
Import ListNotations.
Local Open Scope string_scope.
Local Open Scope Z_scope.

Set Warnings "-register-all".

(** ** JavaScript values

    Numbers are the integer subset of JavaScript numbers.  An error object is
    kept with the fields the library's error classes assign; [classes] is the
    list of constructor names on its prototype chain, which is what
    [instanceof] inspects.  A promise is represented by the state it settles
    in: the model runs an async function to completion at the call. *)

Inductive JsError : Type :=
  MkError (classes : list string)
          (name message : string)
          (decoratorName : option string)
          (originalError : option JsError)
          (fieldName : option string)
          (retryAfter timeLimit attempts : option Z).

Inductive Val : Type :=
| VUndefined
| VNull
| VBool (b : bool)
| VNumber (n : Z)
| VString (s : string)
| VObject (props : list (string * Val))
| VArray (items : list Val)
| VFunction (src : string)
| VError (e : JsError)
| VPromiseFulfilled (v : Val)
| VPromiseRejected (reason : Val)
| VPromisePending.

(** [typeof v] *)
Definition typeof (v : Val) : string :=
  match v with
  | VUndefined => "undefined"
  | VBool _ => "boolean"
  | VNumber _ => "number"
  | VString _ => "string"
  | VFunction _ => "function"
  | _ => "object"
  end.

(** [v === undefined] *)
Definition is_undefined (v : Val) : bool :=
  match v with VUndefined => true | _ => false end.

(** [v == null]: true of [null] and [undefined] only. *)
Definition is_nullish (v : Val) : bool :=
  match v with VUndefined | VNull => true | _ => false end.

(** Truthiness, as [if (v)] and [a || b] test it. *)
Definition truthy (v : Val) : bool :=
  match v with
  | VUndefined | VNull => false
  | VBool b => b
  | VNumber n => negb (n =? 0)
  | VString s => negb (String.eqb s "")
  | _ => true
  end.

(** Decimal rendering of an integer, as a template literal prints it. *)
Definition string_of_Z (z : Z) : string := NilZero.string_of_int (Z.to_int z).

Definition error_name (e : JsError) : string :=
  match e with MkError _ n _ _ _ _ _ _ _ => n end.
Definition error_message (e : JsError) : string :=
  match e with MkError _ _ m _ _ _ _ _ _ => m end.
Definition error_classes (e : JsError) : list string :=
  match e with MkError c _ _ _ _ _ _ _ _ => c end.
Definition error_decoratorName (e : JsError) : option string :=
  match e with MkError _ _ _ d _ _ _ _ _ => d end.
Definition error_originalError (e : JsError) : option JsError :=
  match e with MkError _ _ _ _ o _ _ _ _ => o end.
Definition error_fieldName (e : JsError) : option string :=
  match e with MkError _ _ _ _ _ f _ _ _ => f end.
Definition error_retryAfter (e : JsError) : option Z :=
  match e with MkError _ _ _ _ _ _ r _ _ => r end.
Definition error_timeLimit (e : JsError) : option Z :=
  match e with MkError _ _ _ _ _ _ _ t _ => t end.
Definition error_attempts (e : JsError) : option Z :=
  match e with MkError _ _ _ _ _ _ _ _ a => a end.

(** [Error.prototype.toString] *)
Definition error_toString (e : JsError) : string :=
  if String.eqb (error_message e) "" then error_name e
  else error_name e ++ ": " ++ error_message e.

(** [String(v)].  An array prints its elements separated by commas, with
    [null] and [undefined] elements printed as nothing.  A number is
    printed in decimal, which is its text while [prints_in_decimal] holds
    of it, and an object as [[object Object]], which is its text while it
    has no [toString] or [valueOf] of its own ([converts_by_default]). *)
Fixpoint ToString (v : Val) : string :=
  match v with
  | VUndefined => "undefined"
  | VNull => "null"
  | VBool true => "true"
  | VBool false => "false"
  | VNumber n => string_of_Z n
  | VString s => s
  | VObject _ => "[object Object]"
  | VArray items =>
      (fix commas (l : list Val) : string :=
         match l with
         | [] => ""
         | x :: rest =>
             let sx := match x with
                       | VUndefined | VNull => ""
                       | _ => ToString x
                       end in
             match rest with
             | [] => sx
             | _ :: _ => sx ++ "," ++ commas rest
             end
         end) items
  | VFunction src => src
  | VError e => error_toString e
  | VPromiseFulfilled _ | VPromiseRejected _ | VPromisePending =>
      "[object Promise]"
  end.

(** [Array.prototype.join(sep)]: [null] and [undefined] elements contribute
    the empty string. *)
Definition join_element (v : Val) : string :=
  match v with
  | VUndefined | VNull => ""
  | _ => ToString v
  end.

Fixpoint array_join (sep : string) (items : list Val) : string :=
  match items with
  | [] => ""
  | [x] => join_element x
  | x :: rest => join_element x ++ sep ++ array_join sep rest
  end.

(** [a + s] with [s] a string.  The operator converts an object operand
    with the default hint, which asks [valueOf] before [toString], whereas
    [String(a)] and [join] ask [toString] first.  The inherited [valueOf]
    gives back the object itself, so the text is [String(a)] for every
    value that satisfies [converts_by_default]; an object with a [valueOf]
    of its own is outside it. *)
Definition js_concat_left (a : Val) (s : string) : string := ToString a ++ s.
(** [s + b] with [s] a string; as for [js_concat_left]. *)
Definition js_concat_right (s : string) (b : Val) : string := s ++ ToString b.

(** [Object.prototype.hasOwnProperty.call(props, key)] *)
Definition has_own (key : string) (props : list (string * Val)) : bool :=
  existsb (fun entry => String.eqb (fst entry) key) props.


(** The values whose conversion to a string runs no code of their own, so
    that [String(v)], [v + ''] and the element text of [join] are one text:
    an object without a [toString] or [valueOf] of its own, an array of
    such values, and every value that is neither. *)
Fixpoint converts_by_default (v : Val) : bool :=
  match v with
  | VObject props => negb (has_own "toString" props)
                     && negb (has_own "valueOf" props)
  | VArray items =>
      (fix every (l : list Val) : bool :=
         match l with
         | [] => true
         | x :: rest => converts_by_default x && every rest
         end) items
  | _ => true
  end.

(** ** Key builder *)

Definition fastKey (args : list Val) : string :=
  match args with
  | [] => ""
  | [a] => ToString a
  | [a; b] => js_concat_right (js_concat_left a "|") b
  | _ => array_join "|" args
  end.

(** The general path of [fastKey], taken for three arguments and more. *)
Definition general_key (args : list Val) : string := array_join "|" args.

(** ** Bounded cache

    The [Map] of [UniversalLRU] is an association list in insertion order,
    oldest entry first; keys are strings. *)

Module UniversalLRU.

Record t : Type := mk {
  maxSize : Z;
  cache : list (string * Val);
  hits : Z;
  misses : Z
}.

(** [new UniversalLRU(maxSize)] *)
Definition new (maxSize : Z) : t :=
  {| maxSize := maxSize; cache := []; hits := 0; misses := 0 |}.

(** [Map.prototype.has], [get], [delete], [set], [size], [keys] *)
Definition map_has (key : string) (m : list (string * Val)) : bool :=
  existsb (fun kv => String.eqb (fst kv) key) m.

Fixpoint map_get (key : string) (m : list (string * Val)) : option Val :=
  match m with
  | [] => None
  | (k, v) :: rest => if String.eqb k key then Some v else map_get key rest
  end.

Definition map_delete (key : string) (m : list (string * Val))
  : list (string * Val) :=
  filter (fun kv => negb (String.eqb (fst kv) key)) m.

Definition map_set (key : string) (value : Val) (m : list (string * Val))
  : list (string * Val) :=
  if map_has key m
  then map (fun kv => if String.eqb (fst kv) key then (key, value) else kv) m
  else m ++ [(key, value)].

Definition map_size (m : list (string * Val)) : Z := Z.of_nat (List.length m).

Definition map_keys (m : list (string * Val)) : list string := map fst m.

Definition has (c : t) (key : string) : bool := map_has key (cache c).
Definition size (c : t) : Z := map_size (cache c).
Definition keys (c : t) : list string := map_keys (cache c).

(** [get(key)]: the returned value and the cache afterwards. *)
Definition get (c : t) (key : string) : Val * t :=
  if map_has key (cache c) then
    let value := match map_get key (cache c) with
                 | Some v => v
                 | None => VUndefined
                 end in
    let m1 := map_delete key (cache c) in
    let m2 := map_set key value m1 in
    (value, {| maxSize := maxSize c; cache := m2;
               hits := hits c + 1; misses := misses c |})
  else
    (VUndefined, {| maxSize := maxSize c; cache := cache c;
                    hits := hits c; misses := misses c + 1 |}).

(** [set(key, value)] *)
Definition set (c : t) (key : string) (value : Val) : t :=
  let m1 :=
    if map_has key (cache c) then map_delete key (cache c)
    else if map_size (cache c) >=? maxSize c then
      match map_keys (cache c) with
      | firstKey :: _ => map_delete firstKey (cache c)
      | [] => cache c
      end
    else cache c in
  {| maxSize := maxSize c; cache := map_set key value m1;
     hits := hits c; misses := misses c |}.

(** [info()], without the floating-point [ratio] field. *)
Record Info : Type := mkInfo {
  info_hits : Z;
  info_misses : Z;
  info_maxsize : Z;
  info_currsize : Z
}.

Definition info (c : t) : Info :=
  {| info_hits := hits c; info_misses := misses c;
     info_maxsize := maxSize c; info_currsize := map_size (cache c) |}.

(** [clear()] *)
Definition clear (c : t) : t :=
  {| maxSize := maxSize c; cache := []; hits := 0; misses := 0 |}.

End UniversalLRU.

(** ** Error classes *)

(** [new DecoratorError(message, decoratorName, originalError)] *)
Definition DecoratorError (message : string) (decoratorName : option string)
    (originalError : option JsError) : JsError :=
  MkError ["DecoratorError"; "Error"] "DecoratorError" message
          decoratorName originalError None None None None.

(** [new ValidationError(message, fieldName)]: [super(message, 'validate')] *)
Definition ValidationError (message fieldName : string) : JsError :=
  match DecoratorError message (Some "validate") None with
  | MkError cs _ m d o _ r t a =>
      MkError ("ValidationError" :: cs) "ValidationError" m d o
              (Some fieldName) r t a
  end.

(** [new RateLimitError(message, retryAfter)]: [super(message, 'rateLimit')] *)
Definition RateLimitError (message : string) (retryAfter : Z) : JsError :=
  match DecoratorError message (Some "rateLimit") None with
  | MkError cs _ m d o f _ t a =>
      MkError ("RateLimitError" :: cs) "RateLimitError" m d o f
              (Some retryAfter) t a
  end.

(** [new TimeoutError(message, timeLimit)]: [super(message, 'timeLimit')] *)
Definition TimeoutError (message : string) (timeLimit : Z) : JsError :=
  match DecoratorError message (Some "timeLimit") None with
  | MkError cs _ m d o f r _ a =>
      MkError ("TimeoutError" :: cs) "TimeoutError" m d o f r
              (Some timeLimit) a
  end.

(** [new RetryError(message, attempts, extra)]: the constructor declares the
    two parameters [(message, attempts)] and calls
    [super(message, 'asyncRetry')]; a third actual argument is bound to
    nothing. *)
Definition RetryError (message : string) (attempts : Z) (_unbound : Val)
  : JsError :=
  match DecoratorError message (Some "asyncRetry") None with
  | MkError cs _ m d o f r t _ =>
      MkError ("RetryError" :: cs) "RetryError" m d o f r t (Some attempts)
  end.

(** [error instanceof ErrorClass], the class given by its name. *)
Definition instanceof (error : Val) (ErrorClass : string) : bool :=
  match error with
  | VError e => existsb (String.eqb ErrorClass) (error_classes e)
  | _ => false
  end.

(** ** Functions with private state

    A JavaScript function closes over variables of its own (a counter, a
    cache, a map of call records); the only state it shares with its callers
    is the clock.  A function is therefore a transition on its private state
    and the world, from an argument list to a returned or thrown value.
    [Date.now()] and [performance.now()] both read [clock], in
    milliseconds. *)

Record World : Type := mkWorld { clock : Z }.

Inductive Outcome : Type :=
| Return (v : Val)
| Throw (v : Val).

Record Fn : Type := mkFn {
  fstate : Type;
  finit : fstate;
  fcall : list Val -> fstate -> World -> Outcome * fstate * World
}.

(** A function together with the number of times it has been invoked. *)
Definition counted (f : Fn) : Fn :=
  {| fstate := (Z * fstate f)%type;
     finit := (0, finit f);
     fcall := fun args st w =>
       let '(o, s', w') := fcall f args (snd st) w in
       (o, (fst st + 1, s'), w') |}.

Definition invocations (f : Fn) (st : fstate (counted f)) : Z := fst st.

(** ** 1. [super_cache] *)

(** The names every object literal inherits from [Object.prototype]:
    looking one of them up in [levels] gives a function (or, for
    [__proto__], the prototype object), which is truthy. *)
Definition object_prototype_names : list string :=
  ["constructor"; "hasOwnProperty"; "isPrototypeOf"; "propertyIsEnumerable";
   "toLocaleString"; "toString"; "valueOf"; "__proto__";
   "__defineGetter__"; "__defineSetter__";
   "__lookupGetter__"; "__lookupSetter__"].

(** [sizes[type] || maxsize] with
    [sizes = { light: 32, balanced: maxsize, fast: 256 }], for a [type]
    that [sizes] does not inherit: for a name in [object_prototype_names]
    the lookup gives a function, which no entry count ever reaches. *)
Definition cache_capacity (type : string) (maxsize : Z) : Z :=
  let entry :=
    if String.eqb type "light" then Some 32
    else if String.eqb type "balanced" then Some maxsize
    else if String.eqb type "fast" then Some 256
    else None in
  match entry with
  | Some n => if n =? 0 then maxsize else n
  | None => maxsize
  end.

(** The decorator logic [(originalMethod, propertyKey, type = 'balanced',
    maxsize = 128)]; an omitted argument is [None]. *)
Definition super_cache (originalMethod : Fn) (propertyKey : string)
    (type : option string) (maxsize : option Z) : Fn :=
  let type := match type with Some t => t | None => "balanced" end in
  let maxsize := match maxsize with Some n => n | None => 128 end in
  {| fstate := (UniversalLRU.t * fstate originalMethod)%type;
     finit := (UniversalLRU.new (cache_capacity type maxsize),
               finit originalMethod);
     fcall := fun args st w =>
       let cacheKey := fastKey args in
       let '(result, cache1) := UniversalLRU.get (fst st) cacheKey in
       if is_undefined result then
         match fcall originalMethod args (snd st) w with
         | (Return result, s', w') =>
             (Return result, (UniversalLRU.set cache1 cacheKey result, s'), w')
         | (Throw error, s', w') => (Throw error, (cache1, s'), w')
         end
       else (Return result, (cache1, snd st), w) |}.

(** [cachedMethod.cache_info()] and [cachedMethod.cache_clear()] *)
Definition cache_info (originalMethod : Fn) (propertyKey : string)
    (type : option string) (maxsize : option Z)
    (st : fstate (super_cache originalMethod propertyKey type maxsize))
  : UniversalLRU.Info :=
  UniversalLRU.info (fst st).

Definition cache_clear (originalMethod : Fn) (propertyKey : string)
    (type : option string) (maxsize : option Z)
    (st : fstate (super_cache originalMethod propertyKey type maxsize))
  : fstate (super_cache originalMethod propertyKey type maxsize) :=
  (UniversalLRU.clear (fst st), snd st).

(** ** 4. [repeat] *)

(** [const start = Date.now(); while (Date.now() - start < delay) {}]: the
    loop is left at the first reading of the clock that is [delay]
    milliseconds past [start]. *)
Definition busy_wait (delay : Z) (w : World) : World :=
  {| clock := clock w + delay |}.

(** The [for] loop of [repeatedMethod], by the number of iterations that
    remain; [i] is the loop index. *)
Fixpoint repeat_loop (originalMethod : Fn) (times delay : Z)
    (remaining : nat) (i : Z) (lastError : Val)
    (args : list Val) (s : fstate originalMethod) (w : World)
  : Outcome * fstate originalMethod * World :=
  match remaining with
  | O => (Throw lastError, s, w)
  | S remaining' =>
      match fcall originalMethod args s w with
      | (Return v, s', w') => (Return v, s', w')
      | (Throw error, s', w') =>
          let w'' := if (i <? times - 1) && (delay >? 0)
                     then busy_wait delay w' else w' in
          repeat_loop originalMethod times delay remaining' (i + 1) error
                      args s' w''
      end
  end.

(** The decorator logic [(originalMethod, propertyKey, times = 3,
    delay = 0)]. *)
Definition repeat (originalMethod : Fn) (propertyKey : string)
    (times delay : option Z) : Fn :=
  let times := match times with Some n => n | None => 3 end in
  let delay := match delay with Some n => n | None => 0 end in
  {| fstate := fstate originalMethod;
     finit := finit originalMethod;
     fcall := fun args s w =>
       repeat_loop originalMethod times delay (Z.to_nat times) 0 VUndefined
                   args s w |}.

(** ** 10. [time_limit] *)

(** The decorator logic [(originalMethod, propertyKey, milliseconds = 5000)]:
    the limit is checked once the call has returned. *)
Definition time_limit (originalMethod : Fn) (propertyKey : string)
    (milliseconds : option Z) : Fn :=
  let milliseconds :=
    match milliseconds with Some n => n | None => 5000 end in
  {| fstate := fstate originalMethod;
     finit := finit originalMethod;
     fcall := fun args s w =>
       let startTime := clock w in
       match fcall originalMethod args s w with
       | (Return result, s', w') =>
           let duration := clock w' - startTime in
           if duration >? milliseconds then
             (Throw (VError (TimeoutError
                               ("Method " ++ propertyKey
                                ++ " exceeded time limit of "
                                ++ string_of_Z milliseconds ++ "ms")
                               milliseconds)), s', w')
           else (Return result, s', w')
       | (Throw error, s', w') => (Throw error, s', w')
       end |}.

(** ** 13. [async_retry] *)

Record AsyncRetryOptions : Type := mkAsyncRetryOptions {
  ar_attempts : option Z;
  ar_delay : option Z;
  ar_exponentialBackoff : option bool;
  ar_retryOn : option (list string)
}.

(** [{ attempts: 3, delay: 1000, exponentialBackoff: false, retryOn: [],
      ...options }] *)
Record AsyncRetryConfig : Type := mkAsyncRetryConfig {
  attempts : Z;
  delay : Z;
  exponentialBackoff : bool;
  retryOn : list string
}.

Definition async_retry_config (options : AsyncRetryOptions)
  : AsyncRetryConfig :=
  {| attempts := match ar_attempts options with Some n => n | None => 3 end;
     delay := match ar_delay options with Some n => n | None => 1000 end;
     exponentialBackoff :=
       match ar_exponentialBackoff options with
       | Some b => b
       | None => false
       end;
     retryOn := match ar_retryOn options with Some l => l | None => [] end |}.

(** What [await] makes of the result of a call made inside [try]. *)
Inductive Awaited : Type :=
| Resolved (v : Val)
| Raised (error : Val)
| Suspended.

Definition await (o : Outcome) : Awaited :=
  match o with
  | Throw error => Raised error
  | Return (VPromiseFulfilled v) => Resolved v
  | Return (VPromiseRejected reason) => Raised reason
  | Return VPromisePending => Suspended
  | Return v => Resolved v
  end.

(** [await new Promise(resolve => setTimeout(resolve, delay))] *)
Definition sleep (delay : Z) (w : World) : World :=
  {| clock := clock w + Z.max 0 delay |}.

(** The [for] loop of [retryMethod], by the number of iterations that
    remain; the result is the promise the async function returns. *)
Fixpoint retry_loop (originalMethod : Fn) (propertyKey : string)
    (config : AsyncRetryConfig) (remaining : nat) (i : Z) (lastError : Val)
    (args : list Val) (s : fstate originalMethod) (w : World)
  : Val * fstate originalMethod * World :=
  match remaining with
  | O =>
      (VPromiseRejected
         (VError (RetryError
                    ("Method " ++ propertyKey ++ " failed after "
                     ++ string_of_Z (attempts config) ++ " attempts")
                    (attempts config) lastError)),
       s, w)
  | S remaining' =>
      let '(o, s', w') := fcall originalMethod args s w in
      match await o with
      | Resolved v => (VPromiseFulfilled v, s', w')
      | Suspended => (VPromisePending, s', w')
      | Raised error =>
          let shouldRetry := existsb (instanceof error) (retryOn config) in
          if (0 <? Z.of_nat (List.length (retryOn config)))
             && negb shouldRetry
          then (VPromiseRejected error, s', w')
          else
            let w'' :=
              if i <? attempts config - 1 then
                sleep (if exponentialBackoff config
                       then delay config * 2 ^ i
                       else delay config) w'
              else w' in
            retry_loop originalMethod propertyKey config remaining' (i + 1)
                       error args s' w''
      end
  end.

(** The decorator logic [(originalMethod, propertyKey, options = {})]. *)
Definition async_retry (originalMethod : Fn) (propertyKey : string)
    (options : AsyncRetryOptions) : Fn :=
  let config := async_retry_config options in
  {| fstate := fstate originalMethod;
     finit := finit originalMethod;
     fcall := fun args s w =>
       let '(promise, s', w') :=
         retry_loop originalMethod propertyKey config
                    (Z.to_nat (attempts config)) 0 VUndefined args s w in
       (Return promise, s', w') |}.

(** ** 14. [validate] *)

Record ValidationRule : Type := mkRule {
  r_type : option string;
  r_required : bool;
  r_min : option Z;
  r_max : option Z;
  r_pattern : option (string -> bool);     (* [pattern.test] *)
  r_validate : option (Val -> bool);
  r_message : option string
}.

Record ValidationOptions : Type := mkValidationOptions {
  v_params : option (list (option ValidationRule));
  v_return : option ValidationRule;
  v_throwOnError : option bool;
  v_logErrors : option bool
}.

(** [rule.type === t] *)
Definition type_is (rule : ValidationRule) (t : string) : bool :=
  match r_type rule with Some t' => String.eqb t' t | None => false end.

(** [value.length]: [None] when the property access throws. *)
Definition length_property (value : Val) : option Val :=
  match value with
  | VUndefined | VNull => None
  | VString s => Some (VNumber (Z.of_nat (String.length s)))
  | VArray items => Some (VNumber (Z.of_nat (List.length items)))
  | _ => Some VUndefined
  end.

(** [value < bound] and [value > bound] against a number.  They are reached
    with a number, [null] or [undefined] only ([null] converts to 0,
    [undefined] to NaN); a comparison with NaN is false. *)
Definition lt_number (value : Val) (bound : Z) : bool :=
  match value with
  | VNumber n => n <? bound
  | VNull => 0 <? bound
  | _ => false
  end.

Definition gt_number (value : Val) (bound : Z) : bool :=
  match value with
  | VNumber n => n >? bound
  | VNull => 0 >? bound
  | _ => false
  end.

Definition TypeError (message : string) : Val :=
  VError (MkError ["TypeError"; "Error"] "TypeError" message
                  None None None None None None).

Definition cannot_read_length : Val :=
  TypeError "Cannot read properties of undefined (reading 'length')".

(** The error of [value.length] for the two values that have no
    properties; the message names the value. *)
Definition cannot_read_length_of (value : Val) : Val :=
  match value with
  | VNull => TypeError "Cannot read properties of null (reading 'length')"
  | _ => cannot_read_length
  end.

(** [a || b] on an optional string: the empty string is falsy. *)
Definition or_default (a : option string) (b : string) : string :=
  match a with
  | Some s => if String.eqb s "" then b else s
  | None => b
  end.

(** Statements that may throw, in sequence: the first value thrown. *)
Definition and_then (first next : option Val) : option Val :=
  match first with
  | Some thrown => Some thrown
  | None => next
  end.

Infix ";;" := and_then (at level 61, right associativity).

(** [throw new ValidationError(message, `param${index}`)] *)
Definition param_error (index : Z) (message : string) : option Val :=
  Some (VError (ValidationError message ("param" ++ string_of_Z index))).

(** [rule.type && value != null && typeof value !== rule.type] *)
Definition type_mismatch (rule : ValidationRule) (value : Val) : bool :=
  match r_type rule with
  | Some t => negb (String.eqb t "") && negb (is_nullish value)
              && negb (String.eqb (typeof value) t)
  | None => false
  end.

Definition type_name (rule : ValidationRule) : string :=
  match r_type rule with Some t => t | None => "" end.

(** The six checks of the [forEach] callback, each giving the value it
    throws, if any. *)
Definition check_required (rule : ValidationRule) (index : Z) (value : Val)
  : option Val :=
  if r_required rule && is_nullish value
  then param_error index ("Parameter " ++ string_of_Z index ++ " is required")
  else None.

Definition check_type (rule : ValidationRule) (index : Z) (value : Val)
  : option Val :=
  if type_mismatch rule value
  then param_error index ("Parameter " ++ string_of_Z index
                          ++ " must be of type " ++ type_name rule)
  else None.

Definition check_min (rule : ValidationRule) (index : Z) (value : Val)
  : option Val :=
  match r_min rule with
  | Some min =>
      if type_is rule "string" then
        match length_property value with
        | None => Some (cannot_read_length_of value)
        | Some len =>
            if lt_number len min
            then param_error index ("Parameter " ++ string_of_Z index
                                    ++ " must be >= " ++ string_of_Z min)
            else None
        end
      else if type_is rule "number" && lt_number value min
      then param_error index ("Parameter " ++ string_of_Z index
                              ++ " must be >= " ++ string_of_Z min)
      else None
  | None => None
  end.

Definition check_max (rule : ValidationRule) (index : Z) (value : Val)
  : option Val :=
  match r_max rule with
  | Some max =>
      if type_is rule "string" then
        match length_property value with
        | None => Some (cannot_read_length_of value)
        | Some len =>
            if gt_number len max
            then param_error index ("Parameter " ++ string_of_Z index
                                    ++ " must be <= " ++ string_of_Z max)
            else None
        end
      else if type_is rule "number" && gt_number value max
      then param_error index ("Parameter " ++ string_of_Z index
                              ++ " must be <= " ++ string_of_Z max)
      else None
  | None => None
  end.

Definition check_pattern (rule : ValidationRule) (index : Z) (value : Val)
  : option Val :=
  match r_pattern rule, value with
  | Some test, VString s =>
      if test s then None
      else param_error index ("Parameter " ++ string_of_Z index
                              ++ " does not match required pattern")
  | _, _ => None
  end.

Definition check_custom (rule : ValidationRule) (index : Z) (value : Val)
  : option Val :=
  match r_validate rule with
  | Some predicate =>
      if predicate value then None
      else param_error index
             (or_default (r_message rule)
                ("Parameter " ++ string_of_Z index ++ " validation failed"))
  | None => None
  end.

(** The body of the [forEach] callback for one rule: the value thrown, if
    any. *)
Definition check_param (rule : ValidationRule) (index : Z) (value : Val)
  : option Val :=
  check_required rule index value ;;
  check_type rule index value ;;
  check_min rule index value ;;
  check_max rule index value ;;
  check_pattern rule index value ;;
  check_custom rule index value.

(** [config.params.forEach((rule, index) => ...)]: the first value thrown. *)
Fixpoint check_params (rules : list (option ValidationRule)) (index : Z)
    (args : list Val) : option Val :=
  match rules with
  | [] => None
  | rule :: rest =>
      let value := nth (Z.to_nat index) args VUndefined in
      match match rule with
            | Some r => check_param r index value
            | None => None
            end with
      | Some thrown => Some thrown
      | None => check_params rest (index + 1) args
      end
  end.

(** [throw new ValidationError(message, 'return')] *)
Definition return_error (message : string) : option Val :=
  Some (VError (ValidationError message "return")).

(** The checks made on the result when [config.return] is a rule. *)
Definition check_return (rule : ValidationRule) (result : Val) : option Val :=
  (if r_required rule && is_nullish result
   then return_error "Return value is required" else None) ;;
  (if type_mismatch rule result
   then return_error ("Return value must be of type " ++ type_name rule)
   else None) ;;
  (match r_validate rule with
   | Some predicate =>
       if predicate result then None
       else return_error (or_default (r_message rule)
                                     "Return value validation failed")
   | None => None
   end).

(** The decorator logic [(originalMethod, propertyKey, options = {})];
    [config.params] defaults to [[]] and [config.return] to [null]. *)
Definition validate (originalMethod : Fn) (propertyKey : string)
    (options : ValidationOptions) : Fn :=
  let params := match v_params options with Some l => l | None => [] end in
  {| fstate := fstate originalMethod;
     finit := finit originalMethod;
     fcall := fun args s w =>
       match check_params params 0 args with
       | Some thrown => (Throw thrown, s, w)
       | None =>
           match fcall originalMethod args s w with
           | (Throw error, s', w') => (Throw error, s', w')
           | (Return result, s', w') =>
               match match v_return options with
                     | Some rule => check_return rule result
                     | None => None
                     end with
               | Some thrown => (Throw thrown, s', w')
               | None => (Return result, s', w')
               end
           end
       end |}.

(** ** 15. [rate_limit] *)

Record RateLimitOptions : Type := mkRateLimitOptions {
  rl_requests : option Z;
  rl_window : option string;
  rl_strategy : option string;
  rl_message : option string;
  rl_per : option (list Val -> string)
}.

(** One record of the [calls] map: [{ count, start, lastResult }]. *)
Record CallData : Type := mkCallData {
  count : Z;
  start : Z;
  lastResult : Val
}.

Definition CallsMap : Type := list (string * CallData).

Fixpoint calls_get (key : string) (calls : CallsMap) : option CallData :=
  match calls with
  | [] => None
  | (k, d) :: rest => if String.eqb k key then Some d else calls_get key rest
  end.

Fixpoint calls_set (key : string) (d : CallData) (calls : CallsMap)
  : CallsMap :=
  match calls with
  | [] => [(key, d)]
  | (k, d') :: rest =>
      if String.eqb k key then (k, d) :: rest
      else (k, d') :: calls_set key d rest
  end.

Definition window_ms (window : string) : Z :=
  if String.eqb window "1s" then 1000
  else if String.eqb window "1m" then 60000
  else if String.eqb window "1h" then 3600000
  else 86400000.

(** [resolve(v)]: a promise passed to [resolve] is adopted. *)
Definition promise_resolve (v : Val) : Val :=
  match v with
  | VPromiseFulfilled _ | VPromiseRejected _ | VPromisePending => v
  | _ => VPromiseFulfilled v
  end.

(** The decorator logic [(originalMethod, propertyKey, options = {})], with
    [config = { requests: 10, window: '1m', strategy: 'reject',
    message: 'Rate limit exceeded', ...options }].  The record read from the
    map is the object the map holds, so resetting the window updates the
    map at once; a record made for a new key enters the map at
    [calls.set].  Under the [wait] strategy the deferred call runs at once,
    after the clock has advanced by the time to wait. *)
Definition rate_limit (originalMethod : Fn) (propertyKey : string)
    (options : RateLimitOptions) : Fn :=
  let requests := match rl_requests options with Some n => n | None => 10 end in
  let window := match rl_window options with Some s => s | None => "1m" end in
  let strategy :=
    match rl_strategy options with Some s => s | None => "reject" end in
  let message :=
    match rl_message options with
    | Some s => s
    | None => "Rate limit exceeded"
    end in
  {| fstate := (CallsMap * fstate originalMethod)%type;
     finit := ([], finit originalMethod);
     fcall := fun args st w =>
       let calls := fst st in
       let s := snd st in
       let now := clock w in
       let windowMs := window_ms window in
       let key := match rl_per options with
                  | Some per => per args
                  | None => "global"
                  end in
       let found := calls_get key calls in
       let callData0 :=
         match found with
         | Some d => d
         | None => {| count := 0; start := now; lastResult := VUndefined |}
         end in
       let callData :=
         if now - start callData0 >? windowMs
         then {| count := 0; start := now;
                 lastResult := lastResult callData0 |}
         else callData0 in
       let calls1 :=
         match found with
         | Some _ => calls_set key callData calls
         | None => calls
         end in
       let proceed :=
         let callData' := {| count := count callData + 1;
                             start := start callData;
                             lastResult := lastResult callData |} in
         let calls2 := calls_set key callData' calls1 in
         match fcall originalMethod args s w with
         | (Return result, s', w') =>
             (Return result,
              (calls_set key {| count := count callData';
                                start := start callData';
                                lastResult := result |} calls2, s'), w')
         | (Throw error, s', w') => (Throw error, (calls2, s'), w')
         end in
       if count callData >=? requests then
         let retryAfter := windowMs - (now - start callData) in
         if String.eqb strategy "reject" then
           (Throw (VError (RateLimitError message retryAfter)), (calls1, s), w)
         else if String.eqb strategy "wait" then
           match fcall originalMethod args s (sleep retryAfter w) with
           | (Return result, s', w') =>
               (Return (promise_resolve result), (calls1, s'), w')
           | (Throw _, s', w') => (Return VPromisePending, (calls1, s'), w')
           end
         else if String.eqb strategy "cache" then
           (Return (lastResult callData), (calls1, s), w)
         else proceed
       else proceed |}.

(** ** 16. [metrics] *)

Record MetricsOptions : Type := mkMetricsOptions {
  m_track : option (list string);
  m_name : option string
}.

Record MetricsData : Type := mkMetricsData {
  calls : Z;
  errors : Z;
  totalDuration : Z;
  lastCalled : option Z;
  durations : list Z
}.

Definition metrics_track (options : MetricsOptions) : list string :=
  match m_track options with
  | Some l => l
  | None => ["calls"; "duration"; "errors"]
  end.

(** [config.track.includes(x)] *)
Definition includes (x : string) (l : list string) : bool :=
  existsb (String.eqb x) l.

(** [updateMetrics(duration, error = null)] at clock reading [now]. *)
Definition updateMetrics (track : list string) (now : Z) (duration : Z)
    (error : Val) (d : MetricsData) : MetricsData :=
  {| lastCalled := Some now;
     calls := if includes "calls" track then calls d + 1 else calls d;
     totalDuration := if includes "duration" track
                      then totalDuration d + duration else totalDuration d;
     durations := if includes "duration" track
                  then (durations d ++ [duration])%list else durations d;
     errors := if truthy error && includes "errors" track
               then errors d + 1 else errors d |}.

(** The decorator logic [(originalMethod, propertyKey, options = {})]. *)
Definition metrics (originalMethod : Fn) (propertyKey : string)
    (options : MetricsOptions) : Fn :=
  let track := metrics_track options in
  {| fstate := (MetricsData * fstate originalMethod)%type;
     finit := ({| calls := 0; errors := 0; totalDuration := 0;
                  lastCalled := None; durations := [] |},
               finit originalMethod);
     fcall := fun args st w =>
       let startTime := clock w in
       match fcall originalMethod args (snd st) w with
       | (Return result, s', w') =>
           let duration := clock w' - startTime in
           (Return result,
            (updateMetrics track (clock w') duration VNull (fst st), s'), w')
       | (Throw error, s', w') =>
           let duration := clock w' - startTime in
           (Throw error,
            (updateMetrics track (clock w') duration error (fst st), s'), w')
       end |}.

(** [wrappedMethod.getMetrics()], without the two derived floating-point
    fields, and [wrappedMethod.clearMetrics()]. *)
Definition getMetrics (originalMethod : Fn) (propertyKey : string)
    (options : MetricsOptions)
    (st : fstate (metrics originalMethod propertyKey options)) : MetricsData :=
  fst st.

Definition clearMetrics (originalMethod : Fn) (propertyKey : string)
    (options : MetricsOptions)
    (st : fstate (metrics originalMethod propertyKey options))
  : fstate (metrics originalMethod propertyKey options) :=
  ({| calls := 0; errors := 0; totalDuration := 0;
      lastCalled := None; durations := [] |}, snd st).

(** ** 17. [super_matrix]

    Of the thirteen entries of [decoratorOrder], six are the wrappers
    defined above.  The other seven ([protect], [var_guard], [throttle],
    [debounce], [immutable], [inheritFrom], [logExecution]) are left
    uninterpreted: the composer is defined, and its properties hold, for
    whatever functions they return.  [super_matrix] receives a non-empty
    [propertyKey] from the decorator factory, so the [propertyKey || 'method']
    of the factory hands it on unchanged. *)

Inductive PeripheralKey : Type :=
| KProtect | KVarGuard | KThrottle | KDebounce
| KImmutable | KInherit | KLog.

(** The value under [options.cache]: a type name, or [{ type, maxsize }]. *)
Inductive CacheSetting : Type :=
| CacheType (type : string)
| CacheObject (type : option string) (maxsize : option Z).

(** A decorator already applied to its configuration: what
    [decorator(config)] or [decorator(...config)] returns, called with
    [(wrappedMethod, propertyKey, { value: wrappedMethod })]. *)
Definition Decorator : Type := Fn -> string -> Fn.

Section Composer.

(** The configuration values of the uninterpreted wrappers. *)
Variable Config : Type.
Variable peripheral : PeripheralKey -> Config -> Decorator.

(** The [options] object.  A key that is absent, [undefined] or [false] is
    [None]; [true] is the empty options record.  [repeat] carries the
    argument list [(times, delay)] that a number or an array spreads
    into. *)
Record SuperMatrixOptions : Type := mkOptions {
  o_validate : option ValidationOptions;
  o_rateLimit : option RateLimitOptions;
  o_protect : option Config;
  o_varGuard : option Config;
  o_timeLimit : option Z;
  o_asyncRetry : option AsyncRetryOptions;
  o_repeat : option (option Z * option Z);
  o_throttle : option Config;
  o_debounce : option Config;
  o_immutable : option Config;
  o_inherit : option Config;
  o_log : option Config;
  o_metrics : option MetricsOptions;
  o_cache : option CacheSetting
}.

Definition configured {A : Type} (apply : A -> Decorator) (config : option A)
  : option Decorator :=
  match config with
  | Some c => Some (apply c)
  | None => None
  end.

(** [decoratorOrder], each key with the decorator it selects once
    [options[key]] is read. *)
Definition decoratorOrder
  : list (string * (SuperMatrixOptions -> option Decorator)) :=
  [ ("validate",
     fun o => configured (fun c f pk => validate f pk c) (o_validate o));
    ("rateLimit",
     fun o => configured (fun c f pk => rate_limit f pk c) (o_rateLimit o));
    ("protect", fun o => configured (peripheral KProtect) (o_protect o));
    ("varGuard", fun o => configured (peripheral KVarGuard) (o_varGuard o));
    ("timeLimit",
     fun o => configured (fun c f pk => time_limit f pk (Some c))
                         (o_timeLimit o));
    ("asyncRetry",
     fun o => configured (fun c f pk => async_retry f pk c)
                         (o_asyncRetry o));
    ("repeat",
     fun o => configured (fun c f pk => repeat f pk (fst c) (snd c))
                         (o_repeat o));
    ("throttle", fun o => configured (peripheral KThrottle) (o_throttle o));
    ("debounce", fun o => configured (peripheral KDebounce) (o_debounce o));
    ("immutable",
     fun o => configured (peripheral KImmutable) (o_immutable o));
    ("inherit", fun o => configured (peripheral KInherit) (o_inherit o));
    ("log", fun o => configured (peripheral KLog) (o_log o));
    ("metrics",
     fun o => configured (fun c f pk => metrics f pk c) (o_metrics o)) ].

(** [typeof config === 'string' ? super_cache(config)
     : super_cache(config.type || 'balanced', config.maxsize)] *)
Definition cache_decorator (config : CacheSetting) : Decorator :=
  match config with
  | CacheType type => fun f pk => super_cache f pk (Some type) None
  | CacheObject type maxsize =>
      fun f pk => super_cache f pk (Some (or_default type "balanced")) maxsize
  end.

(** [wrappedMethod = result.value || result] when the key is configured,
    [wrappedMethod] as it was otherwise. *)
Definition wrap (propertyKey : string) (selected : option Decorator)
    (wrappedMethod : Fn) : Fn :=
  match selected with
  | Some decoratorFn => decoratorFn wrappedMethod propertyKey
  | None => wrappedMethod
  end.

(** One step of the [forEach]. *)
Definition apply_entry (options : SuperMatrixOptions) (propertyKey : string)
    (wrappedMethod : Fn)
    (entry : string * (SuperMatrixOptions -> option Decorator)) : Fn :=
  wrap propertyKey (snd entry options) wrappedMethod.

(** The decorator logic [(originalMethod, propertyKey, options = {})]. *)
Definition super_matrix (originalMethod : Fn) (propertyKey : string)
    (options : SuperMatrixOptions) : Fn :=
  let wrappedMethod :=
    fold_left (apply_entry options propertyKey) decoratorOrder
              originalMethod in
  wrap propertyKey (configured cache_decorator (o_cache options))
       wrappedMethod.

(** The nesting the design document prescribes, written out: validate
    innermost, then rate-limit, protect, var-guard, time-limit, async-retry,
    repeat, throttle, debounce, immutable, inherit-from, log, metrics, and
    the cache outermost; a wrapper that is not configured is left out. *)
Definition nested_in_precedence_order (f : Fn) (pk : string)
    (o : SuperMatrixOptions) : Fn :=
  wrap pk (configured cache_decorator (o_cache o))
 (wrap pk (configured (fun c f pk => metrics f pk c) (o_metrics o))
 (wrap pk (configured (peripheral KLog) (o_log o))
 (wrap pk (configured (peripheral KInherit) (o_inherit o))
 (wrap pk (configured (peripheral KImmutable) (o_immutable o))
 (wrap pk (configured (peripheral KDebounce) (o_debounce o))
 (wrap pk (configured (peripheral KThrottle) (o_throttle o))
 (wrap pk (configured (fun c f pk => repeat f pk (fst c) (snd c))
                      (o_repeat o))
 (wrap pk (configured (fun c f pk => async_retry f pk c) (o_asyncRetry o))
 (wrap pk (configured (fun c f pk => time_limit f pk (Some c))
                      (o_timeLimit o))
 (wrap pk (configured (peripheral KVarGuard) (o_varGuard o))
 (wrap pk (configured (peripheral KProtect) (o_protect o))
 (wrap pk (configured (fun c f pk => rate_limit f pk c) (o_rateLimit o))
 (wrap pk (configured (fun c f pk => validate f pk c) (o_validate o))
    f))))))))))))).

(** What the twelve entries before [metrics] make of the function. *)
Definition below_metrics (originalMethod : Fn) (propertyKey : string)
    (options : SuperMatrixOptions) : Fn :=
  fold_left (apply_entry options propertyKey)
            (removelast decoratorOrder) originalMethod.

End Composer.

Arguments mkOptions {Config}.
Arguments o_validate {Config}.
Arguments o_rateLimit {Config}.
Arguments o_protect {Config}.
Arguments o_varGuard {Config}.
Arguments o_timeLimit {Config}.
Arguments o_asyncRetry {Config}.
Arguments o_repeat {Config}.
Arguments o_throttle {Config}.
Arguments o_debounce {Config}.
Arguments o_immutable {Config}.
Arguments o_inherit {Config}.
Arguments o_log {Config}.
Arguments o_metrics {Config}.
Arguments o_cache {Config}.
Arguments decoratorOrder {Config}.
Arguments apply_entry {Config}.
Arguments super_matrix {Config}.
Arguments below_metrics {Config}.
Arguments nested_in_precedence_order {Config}.

(** ** Sequences of cache operations and their touches *)

Inductive Op : Type :=
| OGet (key : string)
| OSet (key : string) (value : Val).

Definition step (c : UniversalLRU.t) (o : Op) : UniversalLRU.t :=
  match o with
  | OGet key => snd (UniversalLRU.get c key)
  | OSet key value => UniversalLRU.set c key value
  end.

Definition run (ops : list Op) (c : UniversalLRU.t) : UniversalLRU.t :=
  fold_left step ops c.

(** The key an operation touches in cache [c]: a [get] touches its key when
    it hits, a [set] always does. *)
Definition touched (c : UniversalLRU.t) (o : Op) : option string :=
  match o with
  | OGet key => if UniversalLRU.has c key then Some key else None
  | OSet key _ => Some key
  end.

(** The touches made by running [ops] from [c], most recent first, in front
    of the earlier touches [earlier]. *)
Fixpoint touches (ops : list Op) (c : UniversalLRU.t) (earlier : list string)
  : list string :=
  match ops with
  | [] => earlier
  | o :: rest =>
      touches rest (step c o)
              (match touched c o with
               | Some key => key :: earlier
               | None => earlier
               end)
  end.

(** How many touches ago [key] was last touched: its position in a list of
    touches that has the most recent first. *)
Fixpoint age (trace : list string) (key : string) : nat :=
  match trace with
  | [] => O
  | k :: rest => if String.eqb k key then O else S (age rest key)
  end.

(** [a] was touched less recently than [b]. *)
Definition less_recent (trace : list string) (a b : string) : Prop :=
  (age trace b < age trace a)%nat.

Definition remove_key (key : string) (l : list string) : list string :=
  filter (fun k => negb (String.eqb k key)) l.

(** A [get] that misses: [undefined] is returned and only the miss counter
    changes. *)
Definition is_miss (c : UniversalLRU.t) (key : string) : Prop :=
  UniversalLRU.get c key
  = (VUndefined,
     {| UniversalLRU.maxSize := UniversalLRU.maxSize c;
        UniversalLRU.cache := UniversalLRU.cache c;
        UniversalLRU.hits := UniversalLRU.hits c;
        UniversalLRU.misses := UniversalLRU.misses c + 1 |}).

(** The stored keys are distinct and listed from the least to the most
    recently touched. *)
Definition recency_ordered (c : UniversalLRU.t) (trace : list string) : Prop :=
  NoDup (UniversalLRU.keys c)
  /\ StronglySorted (less_recent trace) (UniversalLRU.keys c).

(** ** Base functions used to state and to exercise the properties *)

(** [f], called again and again with [args] from state [s], produces the
    outcomes [outs] in turn, at whatever time each call is made. *)
Fixpoint behaves (f : Fn) (args : list Val) (s : fstate f)
    (outs : list Outcome) : Prop :=
  match outs with
  | [] => True
  | o :: rest =>
      forall w, exists s' w',
        fcall f args s w = (o, s', w') /\ behaves f args s' rest
  end.

(** [() => value]; with a rejected promise for [value], an async function
    that always fails. *)
Definition constant (value : Val) : Fn :=
  {| fstate := unit; finit := tt;
     fcall := fun _ s w => (Return value, s, w) |}.

(** [new Error(message)] *)
Definition Error (message : string) : Val :=
  VError (MkError ["Error"] "Error" message None None None None None None).

(** The function of the [repeat] test: it counts its attempts, throws
    [error] while [attemptCount < k] and returns [value] afterwards. *)
Definition flaky (k : Z) (error value : Val) : Fn :=
  {| fstate := Z; finit := 0;
     fcall := fun _ attemptCount w =>
       let attemptCount := attemptCount + 1 in
       if attemptCount <? k then (Throw error, attemptCount, w)
       else (Return value, attemptCount, w) |}.

(** The first argument, returned as it is. *)
Definition identity : Fn :=
  {| fstate := unit; finit := tt;
     fcall := fun args s w => (Return (nth 0 args VUndefined), s, w) |}.

(** A composer whose uninterpreted wrappers add nothing, and an options
    object that configures validate, repeat, metrics and cache. *)
Definition no_peripheral : PeripheralKey -> unit -> Decorator :=
  fun _ _ f _ => f.

Definition sample_metrics : MetricsOptions :=
  {| m_track := None; m_name := None |}.

Definition sample_options : SuperMatrixOptions unit :=
  {| o_validate :=
       Some {| v_params :=
                 Some [Some {| r_type := Some "number"; r_required := true;
                               r_min := Some 0; r_max := None;
                               r_pattern := None; r_validate := None;
                               r_message := None |}];
               v_return := None; v_throwOnError := None;
               v_logErrors := None |};
     o_rateLimit := None; o_protect := None; o_varGuard := None;
     o_timeLimit := None; o_asyncRetry := None;
     o_repeat := Some (Some 2, None);
     o_throttle := None; o_debounce := None; o_immutable := None;
     o_inherit := None; o_log := None;
     o_metrics := Some sample_metrics;
     o_cache := Some (CacheType "fast") |}.

(** Every outcome of [outs] is a failure the configuration retries. *)
Definition all_retried (config : AsyncRetryConfig) (outs : list Outcome)
  : Prop :=
  Forall (fun o => exists error,
              await o = Raised error
              /\ (retryOn config = []
                  \/ existsb (instanceof error) (retryOn config) = true))
         outs.

(** [rate_limit({ requests: 2, window: '1s', strategy: 'reject' })] *)
Definition two_per_second : RateLimitOptions :=
  {| rl_requests := Some 2; rl_window := Some "1s";
     rl_strategy := Some "reject"; rl_message := None; rl_per := None |}.

(** The record of the single partition after a call that went through. *)
Definition after_call (d : CallData) (o : Outcome) : CallData :=
  {| count := count d + 1; start := start d;
     lastResult := match o with
                   | Return result => result
                   | Throw _ => lastResult d
                   end |}.

(** The record a call works on: the stored one, or a fresh window when more
    than a second has passed since its start. *)
Definition current_window (d : CallData) (now : Z) : CallData :=
  if now - start d >? 1000
  then {| count := 0; start := now; lastResult := lastResult d |}
  else d.

(** The rule [{ type: 'string', required: true, min: 3 }] of the tests, and
    a rule that bounds a number from below. *)
Definition name_rule : ValidationRule :=
  {| r_type := Some "string"; r_required := true; r_min := Some 3;
     r_max := None; r_pattern := None; r_validate := None;
     r_message := None |}.

Definition at_least_5 : ValidationRule :=
  {| r_type := Some "number"; r_required := true; r_min := Some 5;
     r_max := None; r_pattern := None; r_validate := None;
     r_message := None |}.

(** A rule without the fields that [check_return] does not read. *)
Definition without_bounds (rule : ValidationRule) : ValidationRule :=
  {| r_type := r_type rule; r_required := r_required rule;
     r_min := None; r_max := None; r_pattern := None;
     r_validate := r_validate rule; r_message := r_message rule |}.

(** Uninterpreted wrappers made visible: each appends its key to a string
    result, so that the result of a call lists the wrappers from the
    innermost to the outermost. *)
Definition key_name (k : PeripheralKey) : string :=
  match k with
  | KProtect => "protect" | KVarGuard => "varGuard"
  | KThrottle => "throttle"
  | KDebounce => "debounce" | KImmutable => "immutable"
  | KInherit => "inherit" | KLog => "log"
  end.

Definition tagging : PeripheralKey -> unit -> Decorator :=
  fun k _ f _ =>
    {| fstate := fstate f; finit := finit f;
       fcall := fun args s w =>
         match fcall f args s w with
         | (Return (VString r), s', w') =>
             (Return (VString (r ++ "." ++ key_name k)), s', w')
         | other => other
         end |}.

Definition tagged_options : SuperMatrixOptions unit :=
  {| o_validate := None; o_rateLimit := None;
     o_protect := Some tt; o_varGuard := Some tt; o_timeLimit := Some 50;
     o_asyncRetry := None; o_repeat := Some (Some 2, None);
     o_throttle := Some tt; o_debounce := Some tt; o_immutable := Some tt;
     o_inherit := Some tt; o_log := Some tt;
     o_metrics := Some sample_metrics;
     o_cache := Some (CacheType "light") |}.

(** ** Further definitions used by the properties of the cache *)

(** The number of [get] operations in a sequence. *)
Definition count_gets (ops : list Op) : Z :=
  Z.of_nat (List.length
              (filter (fun o => match o with OGet _ => true | _ => false end)
                      ops)).

(** A function called at several moments: each call has its arguments and
    the world at the time of the call; the state of the function is carried
    from one call to the next. *)
Fixpoint call_seq (F : Fn) (calls : list (list Val * World)) (st : fstate F)
  : fstate F :=
  match calls with
  | [] => st
  | (args, w) :: rest => call_seq F rest (snd (fst (fcall F args st w)))
  end.

(** [f], called again and again with [args] from state [s], produces the
    outcomes [outs] in turn and never moves the clock. *)
Fixpoint behaves_in_no_time (f : Fn) (args : list Val) (s : fstate f)
    (outs : list Outcome) : Prop :=
  match outs with
  | [] => True
  | o :: rest =>
      forall w, exists s',
        fcall f args s w = (o, s', w) /\ behaves_in_no_time f args s' rest
  end.

(** The time [retryMethod] spends waiting when all its [attempts] fail. *)
Definition total_backoff (config : AsyncRetryConfig) : Z :=
  if exponentialBackoff config
  then delay config * (2 ^ (attempts config - 1) - 1)
  else delay config * (attempts config - 1).

(** What the accumulator of [metrics] shows after [n] calls, given what is
    tracked. *)
Definition metrics_consistent (track : list string) (n : Z) (d : MetricsData)
  : Prop :=
  calls d = (if includes "calls" track then n else 0)
  /\ Z.of_nat (List.length (durations d))
     = (if includes "duration" track then n else 0)
  /\ totalDuration d = fold_right Z.add 0 (durations d)
  /\ 0 <= errors d <= n.

(** [rate_limit] with one partition: the options, and the relation between
    the call record and the number of invocations while all calls fall in a
    span of time, starting at [t0], no longer than the window. *)
Definition limit_options (requests : Z) (window strategy : string)
    (message : option string) : RateLimitOptions :=
  {| rl_requests := Some requests; rl_window := Some window;
     rl_strategy := Some strategy; rl_message := message; rl_per := None |}.

Definition within_one_window (requests t0 : Z) (calls : CallsMap)
    (invoked : Z) : Prop :=
  (calls = [] /\ invoked = 0)
  \/ exists d, calls = [("global", d)]
               /\ t0 <= start d /\ count d = invoked
               /\ 0 < count d <= requests.

(** The partition key of a call: [config.per(...args)], or ['global']. *)
Definition partition_key (options : RateLimitOptions) (args : list Val)
  : string :=
  match rl_per options with
  | Some per => per args
  | None => "global"
  end.

(** An options object that configures validation and rate limiting and
    nothing else. *)
Definition validate_and_limit (Config : Type) (v : ValidationOptions)
    (r : RateLimitOptions) : SuperMatrixOptions Config :=
  {| o_validate := Some v; o_rateLimit := Some r;
     o_protect := None; o_varGuard := None; o_timeLimit := None;
     o_asyncRetry := None; o_repeat := None; o_throttle := None;
     o_debounce := None; o_immutable := None; o_inherit := None;
     o_log := None; o_metrics := None; o_cache := None |}.

(** ** Decorator factory

    What [createUniversalDecorator] inspects of its three arguments: whether
    the target is a function or an object, the [key] and [descriptor]
    properties of an object, and the [value] and the three flags of a
    descriptor. *)

(** A property as [x && typeof x === 'function'] sees it. *)
Inductive PropValue : Type :=
| PFalsy                (* absent, or a falsy value *)
| PTruthy (v : Val)     (* a truthy value that is not a function *)
| PFunction (f : Fn).

(** A property descriptor.  A flag is [None] when the property is absent;
    [flag !== false] holds of everything but [Some false]. *)
Record Descriptor : Type := mkDescriptor {
  d_value : PropValue;
  d_writable : option bool;
  d_configurable : option bool;
  d_enumerable : option bool
}.

Inductive JsValue : Type :=
| JFunction (f : Fn)
| JElement (key : option string) (descriptor : option Descriptor)
    (* an object, with its [key] and [descriptor] properties; [None] for a
       property that is absent or falsy *)
| JDescriptor (d : Descriptor)
| JPrimitive (v : Val).

(** [flag !== false] *)
Definition not_false (flag : option bool) : bool :=
  match flag with Some false => false | _ => true end.

(** [a || b] on optional keys: an absent or empty key is falsy. *)
Definition key_or (a : option string) (b : string) : string :=
  match a with
  | Some s => if String.eqb s "" then b else s
  | None => b
  end.

Definition key_truthy (a : option string) : bool :=
  match a with
  | Some s => negb (String.eqb s "")
  | None => false
  end.

(** A value that is not a function, used as one: calling
    [originalMethod.apply(this, args)] throws a [TypeError]. *)
Definition not_callable : Fn :=
  {| fstate := unit; finit := tt;
     fcall := fun _ s w =>
       (Throw (TypeError "originalMethod.apply is not a function"), s, w) |}.

Definition unsupported_warning (decoratorName : string) : string :=
  "[" ++ decoratorName ++ "] Unsupported decorator format. Target:".

(** [createUniversalDecorator(decoratorName, decoratorLogic)(...decoratorArgs)]
    called with [(target, propertyKey, descriptor)]; [decoratorLogic] has
    its [decoratorArgs] already.  The result comes with the first text of
    each [console.warn]. *)
Definition createUniversalDecorator (decoratorName : string)
    (decoratorLogic : Decorator) (target : JsValue)
    (propertyKey : option string) (descriptor : option Descriptor)
  : JsValue * list string :=
  let modern :=
    match target with
    | JElement key (Some td) =>
        match d_value td with
        | PFalsy => None
        | PTruthy _ => Some (key, td, not_callable)
        | PFunction f => Some (key, td, f)
        end
    | _ => None
    end in
  match modern with
  | Some (key, td, originalMethod) =>
      let methodName := key_or key (key_or propertyKey "method") in
      let wrappedMethod := decoratorLogic originalMethod methodName in
      (JElement key
         (Some {| d_value := PFunction wrappedMethod;
                  d_writable := d_writable td;
                  d_configurable := d_configurable td;
                  d_enumerable := d_enumerable td |}), [])
  | None =>
      match descriptor with
      | Some {| d_value := PFunction originalMethod; d_writable := wr;
                d_configurable := cf; d_enumerable := en |} =>
          let methodName := key_or propertyKey "method" in
          let wrappedMethod := decoratorLogic originalMethod methodName in
          (JDescriptor {| d_value := PFunction wrappedMethod;
                          d_writable := Some (not_false wr);
                          d_configurable := Some (not_false cf);
                          d_enumerable := Some (not_false en) |}, [])
      | _ =>
          match target, key_truthy propertyKey, descriptor with
          | JFunction originalMethod, false, None =>
              (JFunction (decoratorLogic originalMethod "wrapped"), [])
          | _, _, _ => (target, [unsupported_warning decoratorName])
          end
      end
  end.

(** [result.value || result]; [None] when reading [result.value] throws
    because [result] is [null] or [undefined]. *)
Definition value_or_result (result : JsValue) : option JsValue :=
  match result with
  | JDescriptor d =>
      match d_value d with
      | PFunction f => Some (JFunction f)
      | PTruthy v => Some (JPrimitive v)
      | PFalsy => Some result
      end
  | JPrimitive v => if is_nullish v then None else Some result
  | _ => Some result
  end.

(** [{ value: fn }] *)
Definition value_descriptor (fn : Fn) : Descriptor :=
  {| d_value := PFunction fn; d_writable := None; d_configurable := None;
     d_enumerable := None |}.

(** [wrapFunction.cache(fn, type = 'balanced', maxsize = 128)] for a
    function [fn]. *)
Definition wrapFunction_cache (fn : Fn) (type : option string)
    (maxsize : option Z) : option JsValue :=
  let type := match type with Some t => t | None => "balanced" end in
  let maxsize := match maxsize with Some n => n | None => 128 end in
  let decorator :=
    createUniversalDecorator "super_cache"
      (fun f pk => super_cache f pk (Some type) (Some maxsize)) in
  let result := fst (decorator (JFunction fn) (Some "wrapped")
                               (Some (value_descriptor fn))) in
  value_or_result result.

(** [decorate(fn, ...decorators)]: each decorator is called with the value
    decorated so far and nothing else. *)
Definition decorate (fn : JsValue)
    (decorators : list (JsValue -> option string -> option Descriptor
                        -> JsValue * list string))
  : JsValue * list string :=
  fold_left (fun decorated decorator =>
               let '(next, warnings) := decorator (fst decorated) None None in
               (next, (snd decorated ++ warnings)%list))
            decorators (fn, []).

(** ** 12. [throttle]

    [throttle] keeps the time of the last accepted call per receiver, in a
    [WeakMap] keyed by [this].  A receiver is an object, known by its
    identity, or is missing: [this] is [undefined] in a plain call made from
    module code. *)

Definition Receiver : Type := option nat.

Fixpoint weak_get (r : nat) (m : list (nat * Z)) : option Z :=
  match m with
  | [] => None
  | (r0, t) :: rest => if Nat.eqb r0 r then Some t else weak_get r rest
  end.

Fixpoint weak_set (r : nat) (t : Z) (m : list (nat * Z)) : list (nat * Z) :=
  match m with
  | [] => [(r, t)]
  | (r0, t0) :: rest =>
      if Nat.eqb r0 r then (r0, t) :: rest else (r0, t0) :: weak_set r t rest
  end.

(** The decorator logic [(originalMethod, propertyKey, interval = 1000)],
    called on receiver [this].  [lastCallTimes.get(undefined)] is
    [undefined]; [lastCallTimes.set(undefined, now)] throws a
    [TypeError]. *)
Definition throttle (originalMethod : Fn) (propertyKey : string)
    (interval : option Z) (this : Receiver) : Fn :=
  let interval := match interval with Some n => n | None => 1000 end in
  {| fstate := (list (nat * Z) * fstate originalMethod)%type;
     finit := ([], finit originalMethod);
     fcall := fun args st w =>
       let now := clock w in
       let lastCall :=
         match this with
         | Some r => match weak_get r (fst st) with Some t => t | None => 0 end
         | None => 0
         end in
       if now - lastCall >=? interval then
         match this with
         | Some r =>
             let '(o, s', w') := fcall originalMethod args (snd st) w in
             (o, (weak_set r now (fst st), s'), w')
         | None =>
             (Throw (TypeError "Invalid value used as weak map key"), st, w)
         end
       else (Return VUndefined, st, w) |}.

(** ** 2. [protect] and 8. [inheritFrom]

    Both build objects with spread syntax, and [protect] freezes its
    result.  These three operations of the language are parameters: the
    wrappers are defined for any result they may give.  Lines written with
    [universalLog.error] are kept, oldest first, in the state of the
    wrapper that writes them. *)

Record LogLine : Type := mkLogLine {
  log_level : string;
  log_text : string;
  log_value : Val
}.

Record ProtectOptions : Type := mkProtectOptions {
  p_silent : option bool
}.

Record InheritOptions : Type := mkInheritOptions {
  i_mergeResults : option bool;
  i_callParentFirst : option bool;
  i_inheritProperties : option bool
}.

(** [typeof v === 'object' && v !== null] *)
Definition is_object (v : Val) : bool :=
  String.eqb (typeof v) "object"
  && negb match v with VNull => true | _ => false end.

(** [levels[level] || 2] with [levels = { loose: 1, normal: 2, strict: 3 }]:
    [Some n] for a number, [None] for an inherited member, which is kept by
    [||] and is not a number. *)
Definition protection_level (level : string) : option Z :=
  if String.eqb level "loose" then Some 1
  else if String.eqb level "normal" then Some 2
  else if String.eqb level "strict" then Some 3
  else if existsb (String.eqb level) object_prototype_names then None
  else Some 2.

(** [protectionLevel >= n]: false when the left operand is not a number. *)
Definition at_least (protectionLevel : option Z) (n : Z) : bool :=
  match protectionLevel with
  | Some l => l >=? n
  | None => false
  end.

Section ObjectOperations.

(** [{ ...a }], [{ ...a, ...b }] and [Object.freeze(a)] *)
Variable object_spread : Val -> Val.
Variable object_spread2 : Val -> Val -> Val.
Variable object_freeze : Val -> Val.

(** The arguments [protectedMethod] passes on. *)
Definition protected_args (protectionLevel : option Z) (args : list Val)
  : list Val :=
  if at_least protectionLevel 2
  then map (fun arg => if is_object arg then object_spread arg else arg) args
  else args.

(** The decorator logic [(originalMethod, propertyKey, level = 'normal',
    options = {})]. *)
Definition protect (originalMethod : Fn) (propertyKey : string)
    (level : option string) (options : ProtectOptions) : Fn :=
  let level := match level with Some l => l | None => "normal" end in
  let protectionLevel := protection_level level in
  let silent := match p_silent options with Some b => b | None => false end in
  {| fstate := (list LogLine * fstate originalMethod)%type;
     finit := ([], finit originalMethod);
     fcall := fun args st w =>
       match fcall originalMethod (protected_args protectionLevel args)
                   (snd st) w with
       | (Return result, s', w') =>
           (Return (if at_least protectionLevel 3 && is_object result
                    then object_freeze result else result),
            (fst st, s'), w')
       | (Throw error, s', w') =>
           let written :=
             if silent then fst st
             else (fst st
                   ++ [{| log_level := "error";
                          log_text := "Protected method " ++ propertyKey
                                      ++ " failed:";
                          log_value := error |}])%list in
           if at_least protectionLevel 3 then (Throw error, (written, s'), w')
           else (Return VUndefined, (written, s'), w')
       end |}.

(** The decorator logic [(originalMethod, propertyKey, parentFunction,
    options = {})], for a function [parentFunction]. *)
Definition inheritFrom (originalMethod : Fn) (propertyKey : string)
    (parentFunction : Fn) (options : InheritOptions) : Fn :=
  let mergeResults :=
    match i_mergeResults options with Some b => b | None => false end in
  let callParentFirst :=
    match i_callParentFirst options with Some b => b | None => false end in
  let own (parentResult : Val) (sp : fstate parentFunction)
          (args : list Val) (s : fstate originalMethod) (w : World) :=
    match fcall originalMethod args s w with
    | (Return result, s', w') =>
        (Return (if mergeResults
                    && String.eqb (typeof parentResult) "object"
                    && String.eqb (typeof result) "object"
                 then object_spread2 parentResult result else result),
         (sp, s'), w')
    | (Throw error, s', w') => (Throw error, (sp, s'), w')
    end in
  {| fstate := (fstate parentFunction * fstate originalMethod)%type;
     finit := (finit parentFunction, finit originalMethod);
     fcall := fun args st w =>
       if callParentFirst then
         match fcall parentFunction args (fst st) w with
         | (Return parentResult, sp, w1) =>
             own parentResult sp args (snd st) w1
         | (Throw error, sp, w1) => (Throw error, (sp, snd st), w1)
         end
       else own VNull (fst st) args (snd st) w |}.

End ObjectOperations.

(** * Properties *)

(** ** The map operations *)

Section MapFacts.

Import UniversalLRU.

Lemma map_has_In (key : string) (m : list (string * Val)) :
  map_has key m = true <-> In key (map_keys m).
Proof.
  unfold map_has, map_keys.
  rewrite existsb_exists, in_map_iff.
  split; intros [kv [H1 H2]]; exists kv.
  - apply String.eqb_eq in H2. auto.
  - split; [assumption | now apply String.eqb_eq].
Qed.

Lemma map_has_false (key : string) (m : list (string * Val)) :
  map_has key m = false <-> ~ In key (map_keys m).
Proof.
  rewrite <- map_has_In. destruct (map_has key m); split; congruence.
Qed.

Lemma map_keys_delete (key : string) (m : list (string * Val)) :
  map_keys (map_delete key m) = remove_key key (map_keys m).
Proof.
  unfold map_keys, map_delete, remove_key.
  induction m as [|[k v] m IH]; simpl; [reflexivity|].
  destruct (String.eqb k key); simpl; now rewrite IH.
Qed.

Lemma map_set_absent (key : string) (value : Val) (m : list (string * Val)) :
  map_has key m = false -> map_set key value m = (m ++ [(key, value)])%list.
Proof. unfold map_set. now intros ->. Qed.

Lemma map_keys_app (m1 m2 : list (string * Val)) :
  map_keys (m1 ++ m2) = (map_keys m1 ++ map_keys m2)%list.
Proof. apply map_app. Qed.

Lemma remove_key_In (key k : string) (l : list string) :
  In k (remove_key key l) <-> In k l /\ k <> key.
Proof.
  unfold remove_key. rewrite filter_In, negb_true_iff, String.eqb_neq.
  tauto.
Qed.

Lemma remove_key_absent (key : string) (l : list string) :
  ~ In key l -> remove_key key l = l.
Proof.
  induction l as [|k l IH]; simpl; intros H; [reflexivity|].
  destruct (String.eqb_spec k key) as [->|Hne]; simpl.
  - exfalso. apply H. now left.
  - f_equal. apply IH. tauto.
Qed.

Lemma remove_key_length (key : string) (l : list string) :
  (List.length (remove_key key l) <= List.length l)%nat.
Proof. apply filter_length_le. Qed.

Lemma remove_key_length_lt (key : string) (l : list string) :
  In key l -> (List.length (remove_key key l) < List.length l)%nat.
Proof.
  induction l as [|k l IH]; simpl; intros H; [contradiction|].
  destruct (String.eqb_spec k key) as [->|Hne]; simpl.
  - pose proof (remove_key_length key l). lia.
  - destruct H as [H|H]; [congruence|]. specialize (IH H). lia.
Qed.

Lemma remove_key_NoDup (key : string) (l : list string) :
  NoDup l -> NoDup (remove_key key l).
Proof. apply NoDup_filter. Qed.

Lemma remove_key_head (key : string) (l : list string) :
  NoDup (key :: l) -> remove_key key (key :: l) = l.
Proof.
  intros H. inversion H; subst. simpl. rewrite String.eqb_refl. simpl.
  now apply remove_key_absent.
Qed.

Lemma map_has_delete_same (key : string) (m : list (string * Val)) :
  map_has key (map_delete key m) = false.
Proof.
  apply map_has_false. rewrite map_keys_delete, remove_key_In. tauto.
Qed.

Lemma map_has_delete_other (key k : string) (m : list (string * Val)) :
  map_has key m = false -> map_has key (map_delete k m) = false.
Proof.
  rewrite !map_has_false, map_keys_delete, remove_key_In. tauto.
Qed.

End MapFacts.

(** ** The bounded cache *)

Section LRUFacts.

Import UniversalLRU.

Lemma size_keys (c : t) : size c = Z.of_nat (List.length (keys c)).
Proof. unfold size, keys, map_size, map_keys. now rewrite length_map. Qed.

Lemma get_miss (c : t) (key : string) :
  has c key = false -> is_miss c key.
Proof. unfold has, is_miss, get. now intros ->. Qed.

Lemma get_hit_keys (c : t) (key : string) :
  has c key = true ->
  keys (snd (get c key)) = (remove_key key (keys c) ++ [key])%list.
Proof.
  unfold has, keys, get. intros ->. simpl.
  rewrite map_set_absent by apply map_has_delete_same.
  now rewrite map_keys_app, map_keys_delete.
Qed.

Lemma get_miss_keys (c : t) (key : string) :
  has c key = false -> keys (snd (get c key)) = keys c.
Proof. unfold has, keys, get. now intros ->. Qed.

Lemma get_maxSize (c : t) (key : string) :
  maxSize (snd (get c key)) = maxSize c.
Proof. unfold get. now destruct (map_has key (cache c)). Qed.

Lemma set_maxSize (c : t) (key : string) (value : Val) :
  maxSize (set c key value) = maxSize c.
Proof. reflexivity. Qed.

Lemma set_keys_present (c : t) (key : string) (value : Val) :
  has c key = true ->
  keys (set c key value) = (remove_key key (keys c) ++ [key])%list.
Proof.
  unfold has, keys, set. intros ->. simpl.
  rewrite map_set_absent by apply map_has_delete_same.
  now rewrite map_keys_app, map_keys_delete.
Qed.

Lemma set_keys_evict (c : t) (key : string) (value : Val)
    (firstKey : string) (rest : list string) :
  has c key = false -> size c >= maxSize c -> keys c = firstKey :: rest ->
  keys (set c key value)
  = (remove_key firstKey (firstKey :: rest) ++ [key])%list.
Proof.
  unfold has, keys, size, set. intros Hk Hs Hf. rewrite Hk. simpl.
  assert (Hge : (map_size (cache c) >=? maxSize c) = true)
    by (apply Z.geb_le; lia).
  rewrite Hge, Hf.
  rewrite map_set_absent by now apply map_has_delete_other.
  now rewrite map_keys_app, map_keys_delete, Hf.
Qed.

Lemma set_keys_empty (c : t) (key : string) (value : Val) :
  keys c = [] -> keys (set c key value) = [key].
Proof.
  unfold keys, set. intros Hf.
  assert (Hc : cache c = []) by (destruct (cache c); [reflexivity|discriminate]).
  rewrite Hc. cbn. now destruct (0 >=? maxSize c).
Qed.

Lemma set_keys_room (c : t) (key : string) (value : Val) :
  has c key = false -> size c < maxSize c ->
  keys (set c key value) = (keys c ++ [key])%list.
Proof.
  unfold has, keys, size, set. intros Hk Hs. rewrite Hk. simpl.
  assert (Hge : (map_size (cache c) >=? maxSize c) = false).
  { destruct (map_size (cache c) >=? maxSize c) eqn:E; [|reflexivity].
    apply Z.geb_le in E. lia. }
  rewrite Hge, map_set_absent by assumption.
  now rewrite map_keys_app.
Qed.

(** Whatever is stored after an operation was stored before it, or is the
    key the operation sets. *)
Lemma step_keys_subset (c : t) (o : Op) (k : string) :
  In k (keys (step c o)) ->
  In k (keys c) \/ exists value, o = OSet k value.
Proof.
  destruct o as [key|key value]; simpl.
  - destruct (has c key) eqn:Hh.
    + rewrite get_hit_keys by assumption.
      rewrite in_app_iff, remove_key_In. simpl.
      intros [[H _]|[<-|[]]]; left; [assumption|].
      now apply map_has_In.
    + rewrite get_miss_keys by assumption. auto.
  - destruct (String.eqb_spec key k) as [->|Hne]; [right; eauto|].
    left. revert H. destruct (has c key) eqn:Hh.
    + rewrite set_keys_present by assumption.
      rewrite in_app_iff, remove_key_In. simpl. intuition congruence.
    + destruct (keys c) as [|f rest] eqn:Hk.
      * rewrite set_keys_empty by assumption. simpl. intuition congruence.
      * destruct (Z_lt_ge_dec (size c) (maxSize c)) as [Hlt|Hge].
        -- rewrite set_keys_room, Hk by assumption.
           rewrite in_app_iff. simpl. intuition congruence.
        -- rewrite (set_keys_evict c key value f rest Hh Hge Hk).
           rewrite in_app_iff, remove_key_In. simpl. intuition congruence.
Qed.

(** A key that is not stored stays out of the cache until it is set. *)
Lemma absent_until_set (key : string) (ops : list Op) :
  (forall value, ~ In (OSet key value) ops) ->
  forall c, has c key = false -> has (run ops c) key = false.
Proof.
  induction ops as [|o ops IH]; intros Hno c Hc; simpl; [assumption|].
  apply IH.
  - intros value Hin. apply (Hno value). now right.
  - apply map_has_false. intros Hin.
    apply step_keys_subset in Hin. destruct Hin as [Hin|[value ->]].
    + apply map_has_false in Hc. contradiction.
    + apply (Hno value). now left.
Qed.

(** *** Recency order *)

Lemma age_cons_same (trace : list string) (key : string) :
  age (key :: trace) key = O.
Proof. simpl. now rewrite String.eqb_refl. Qed.

Lemma age_cons_other (trace : list string) (key k : string) :
  k <> key -> age (key :: trace) k = S (age trace k).
Proof.
  intros H. simpl. destruct (String.eqb_spec key k); congruence.
Qed.

Lemma touch_sorted (trace : list string) (key : string) (l : list string) :
  StronglySorted (less_recent trace) l ->
  StronglySorted (less_recent (key :: trace))
                 (remove_key key l ++ [key])%list.
Proof.
  induction 1 as [|a l Hs IH Hall]; simpl.
  - repeat constructor.
  - destruct (String.eqb_spec a key) as [->|Hne]; simpl; [assumption|].
    constructor; [assumption|].
    rewrite Forall_app. split.
    + rewrite Forall_forall in *. intros b Hb.
      apply remove_key_In in Hb. destruct Hb as [Hb Hbk].
      specialize (Hall b Hb). unfold less_recent in *.
      rewrite !age_cons_other by assumption. lia.
    + constructor; [|constructor]. unfold less_recent.
      rewrite age_cons_same, age_cons_other by assumption. lia.
Qed.

Lemma NoDup_snoc (key : string) (l : list string) :
  NoDup l -> ~ In key l -> NoDup (l ++ [key])%list.
Proof.
  intros Hl Hk. apply NoDup_app; [assumption|repeat constructor; auto|].
  intros x Hx [<-|[]]. contradiction.
Qed.

Lemma touch_NoDup (key : string) (l : list string) :
  NoDup l -> NoDup (remove_key key l ++ [key])%list.
Proof.
  intros H. apply NoDup_snoc; [now apply remove_key_NoDup|].
  rewrite remove_key_In. tauto.
Qed.

Lemma step_recency_ordered (c : t) (trace : list string) (o : Op) :
  recency_ordered c trace ->
  recency_ordered (step c o)
    (match touched c o with Some key => key :: trace | None => trace end).
Proof.
  intros [Hnd Hs]. unfold recency_ordered.
  destruct o as [key|key value]; simpl.
  - destruct (has c key) eqn:Hh.
    + rewrite get_hit_keys by assumption.
      split; [now apply touch_NoDup | now apply touch_sorted].
    + rewrite get_miss_keys by assumption. now split.
  - destruct (has c key) eqn:Hh.
    + rewrite set_keys_present by assumption.
      split; [now apply touch_NoDup | now apply touch_sorted].
    + assert (Habs : ~ In key (keys c)) by now apply map_has_false.
      destruct (keys c) as [|f rest] eqn:Hk.
      * rewrite set_keys_empty by assumption.
        split; repeat constructor. intros [].
      * destruct (Z_lt_ge_dec (size c) (maxSize c)) as [Hlt|Hge].
        -- rewrite set_keys_room, Hk by assumption.
           rewrite <- (remove_key_absent key (f :: rest)) by assumption.
           split; [now apply touch_NoDup | now apply touch_sorted].
        -- rewrite (set_keys_evict c key value f rest Hh Hge Hk).
           rewrite remove_key_head by assumption.
           inversion Hnd; subst. inversion Hs; subst.
           assert (Hr : ~ In key rest) by (simpl in Habs; tauto).
           rewrite <- (remove_key_absent key rest) by assumption.
           split; [now apply touch_NoDup | now apply touch_sorted].
Qed.

Lemma step_maxSize (c : t) (o : Op) : maxSize (step c o) = maxSize c.
Proof. destruct o; [apply get_maxSize | reflexivity]. Qed.

Lemma step_size_bound (c : t) (o : Op) :
  1 <= maxSize c -> NoDup (keys c) -> size c <= maxSize c ->
  size (step c o) <= maxSize c.
Proof.
  intros HN Hnd Hsz. rewrite !size_keys in *.
  destruct o as [key|key value]; simpl.
  - destruct (has c key) eqn:Hh.
    + rewrite get_hit_keys by assumption.
      apply map_has_In in Hh. apply (remove_key_length_lt key) in Hh.
      rewrite length_app. simpl. unfold keys in *. lia.
    + now rewrite get_miss_keys.
  - destruct (has c key) eqn:Hh.
    + rewrite set_keys_present by assumption.
      apply map_has_In in Hh. apply (remove_key_length_lt key) in Hh.
      rewrite length_app. simpl. unfold keys in *. lia.
    + destruct (keys c) as [|f rest] eqn:Hk.
      * rewrite set_keys_empty by assumption. simpl. lia.
      * destruct (Z_lt_ge_dec (size c) (maxSize c)) as [Hlt|Hge].
        -- rewrite set_keys_room, Hk by assumption.
           rewrite size_keys, Hk in Hlt.
           rewrite length_app. simpl in *. lia.
        -- rewrite (set_keys_evict c key value f rest Hh Hge Hk).
           rewrite remove_key_head by assumption.
           rewrite length_app. simpl in *. lia.
Qed.

Lemma run_invariant (ops : list Op) :
  forall (c : t) (trace : list string),
    1 <= maxSize c -> recency_ordered c trace -> size c <= maxSize c ->
    maxSize (run ops c) = maxSize c
    /\ recency_ordered (run ops c) (touches ops c trace)
    /\ size (run ops c) <= maxSize c.
Proof.
  induction ops as [|o ops IH]; intros c trace HN Hord Hsz; simpl.
  - auto.
  - pose proof (step_maxSize c o) as Hm.
    destruct (IH (step c o)
                 (match touched c o with
                  | Some key => key :: trace
                  | None => trace
                  end)) as (H1 & H2 & H3).
    + now rewrite Hm.
    + now apply step_recency_ordered.
    + rewrite Hm. apply step_size_bound; [assumption| apply Hord |assumption].
    + rewrite Hm in *. auto.
Qed.

(** Every stored key has been touched. *)
Lemma run_touched (ops : list Op) :
  forall (c : t) (trace : list string),
    (forall k, In k (keys c) -> In k trace) ->
    forall k, In k (keys (run ops c)) -> In k (touches ops c trace).
Proof.
  induction ops as [|o ops IH]; intros c trace Hin k Hk; simpl in *.
  - auto.
  - apply (IH (step c o)); [|assumption].
    intros k' Hk'. apply step_keys_subset in Hk'.
    destruct Hk' as [Hk'|[value ->]].
    + specialize (Hin k' Hk'). destruct (touched c o); simpl; auto.
    + simpl. now left.
Qed.

End LRUFacts.

(** C1.  A cache of capacity [N >= 1], after any sequence of [get] and [set]
    operations, stores at most [N] entries.  When a key that is not stored
    is set while the cache holds [N] entries, the entry removed is the first
    of the map, every other stored key was touched more recently than it (a
    [get] that hits and every [set] are touches), the new key takes the most
    recent position, and a [get] of the evicted key is a miss until that key
    is set again. *)
Theorem lru_capacity_and_eviction (N : Z) (ops : list Op) :
  1 <= N ->
  let c := run ops (UniversalLRU.new N) in
  let trace := touches ops (UniversalLRU.new N) [] in
  UniversalLRU.size c <= N
  /\ forall key value,
       UniversalLRU.has c key = false -> UniversalLRU.size c = N ->
       exists evicted rest,
         UniversalLRU.keys c = evicted :: rest
         /\ In evicted trace
         /\ (forall k, In k rest -> In k trace /\ less_recent trace evicted k)
         /\ UniversalLRU.keys (UniversalLRU.set c key value)
            = (rest ++ [key])%list
         /\ ~ In evicted (rest ++ [key])%list
         /\ forall later,
              (forall v, ~ In (OSet evicted v) later) ->
              is_miss (run later (UniversalLRU.set c key value)) evicted.
Proof.
  intros HN c trace.
  assert (H : UniversalLRU.maxSize c = N
              /\ recency_ordered c trace /\ UniversalLRU.size c <= N).
  { subst c trace. apply (run_invariant ops (UniversalLRU.new N) []).
    - assumption.
    - split; constructor.
    - unfold UniversalLRU.size, UniversalLRU.map_size. simpl. lia. }
  assert (Ht : forall k, In k (UniversalLRU.keys c) -> In k trace).
  { subst c trace. apply run_touched. intros k []. }
  clearbody c trace. destruct H as (Hm & [Hnd Hs] & Hsz).
  - split; [assumption|].
    intros key value Hk Hfull.
    destruct (UniversalLRU.keys c) as [|evicted rest] eqn:Hkeys.
    + rewrite size_keys, Hkeys in Hfull. simpl in Hfull. lia.
    + exists evicted, rest.
      pose proof Hnd as Hnd0.
      apply NoDup_cons_iff in Hnd as [Hnotin Hnd'].
      apply StronglySorted_inv in Hs as [Hs' Hall].
      assert (Hne : evicted <> key).
      { intros ->. apply map_has_false in Hk.
        apply Hk. fold (UniversalLRU.keys c). rewrite Hkeys. now left. }
      assert (Hkeys' : UniversalLRU.keys (UniversalLRU.set c key value)
                       = (rest ++ [key])%list).
      { rewrite (set_keys_evict c key value evicted rest Hk);
          [|rewrite Hm; lia|assumption].
        now rewrite remove_key_head. }
      assert (Hout : ~ In evicted (rest ++ [key])%list).
      { rewrite in_app_iff. simpl. intuition congruence. }
      repeat split.
      * apply Ht. now left.
      * apply Ht. now right.
      * rewrite Forall_forall in Hall. now apply Hall.
      * exact Hkeys'.
      * exact Hout.
      * intros later Hlater. apply get_miss.
        apply absent_until_set; [assumption|].
        apply map_has_false.
        fold (UniversalLRU.keys (UniversalLRU.set c key value)).
        now rewrite Hkeys'.
Qed.

Lemma lru_capacity_and_eviction_witness :
  let ops := [OSet "a" (VNumber 1); OSet "b" (VNumber 2); OGet "a"] in
  let c := run ops (UniversalLRU.new 2) in
  let trace := touches ops (UniversalLRU.new 2) [] in
  UniversalLRU.size c <= 2
  /\ forall key value,
       UniversalLRU.has c key = false -> UniversalLRU.size c = 2 ->
       exists evicted rest,
         UniversalLRU.keys c = evicted :: rest
         /\ In evicted trace
         /\ (forall k, In k rest -> In k trace /\ less_recent trace evicted k)
         /\ UniversalLRU.keys (UniversalLRU.set c key value)
            = (rest ++ [key])%list
         /\ ~ In evicted (rest ++ [key])%list
         /\ forall later,
              (forall v, ~ In (OSet evicted v) later) ->
              is_miss (run later (UniversalLRU.set c key value)) evicted.
Proof.
  intros ops.
  apply (lru_capacity_and_eviction 2 ops).
  lia.
Defined.

(** The run of the witness: ["b"] is the least recently touched key and is
    the one a third key evicts. *)
Example lru_eviction_run :
  let c := run [OSet "a" (VNumber 1); OSet "b" (VNumber 2); OGet "a"]
               (UniversalLRU.new 2) in
  UniversalLRU.keys c = ["b"; "a"]
  /\ UniversalLRU.keys (UniversalLRU.set c "c" (VNumber 3)) = ["a"; "c"]
  /\ fst (UniversalLRU.get (UniversalLRU.set c "c" (VNumber 3)) "b")
     = VUndefined.
Proof. repeat split. Qed.

(** *** Capacity zero and below *)

Section NonPositiveCapacity.

Import UniversalLRU.

Lemma nonpositive_set (c : t) (key : string) (value : Val) :
  maxSize c <= 0 -> (List.length (cache c) <= 1)%nat ->
  cache (set c key value) = [(key, value)].
Proof.
  intros HN Hlen. unfold set. simpl.
  destruct (cache c) as [|[k0 v0] [|kv rest]] eqn:Hc; simpl in Hlen;
    [ | |lia].
  - cbn. now destruct (0 >=? maxSize c).
  - unfold map_has, map_size, map_delete, map_set. simpl.
    destruct (String.eqb_spec k0 key) as [->|Hne]; simpl.
    + reflexivity.
    + assert (Hge : (1 >=? maxSize c) = true) by (apply Z.geb_le; lia).
      rewrite Hge. simpl. rewrite String.eqb_refl. reflexivity.
Qed.

Lemma nonpositive_step (c : t) (o : Op) :
  maxSize c <= 0 -> (List.length (cache c) <= 1)%nat ->
  (List.length (cache (step c o)) <= 1)%nat.
Proof.
  intros HN Hlen. destruct o as [key|key value]; cbn [step].
  - unfold get.
    destruct (cache c) as [|[k0 v0] [|kv rest]] eqn:Hc; simpl in Hlen;
      [ | |lia].
    + simpl. lia.
    + unfold map_has, map_delete, map_set. simpl.
      destruct (String.eqb k0 key); simpl; lia.
  - rewrite nonpositive_set by assumption. simpl. lia.
Qed.

Lemma nonpositive_run (ops : list Op) :
  forall c, maxSize c <= 0 -> (List.length (cache c) <= 1)%nat ->
            maxSize (run ops c) <= 0
            /\ (List.length (cache (run ops c)) <= 1)%nat.
Proof.
  induction ops as [|o ops IH]; intros c HN Hlen; simpl; [auto|].
  apply IH.
  - now rewrite step_maxSize.
  - now apply nonpositive_step.
Qed.

End NonPositiveCapacity.

(** C9, as the code has it.  A capacity of zero or below is accepted by the
    constructor, and every insertion succeeds and leaves the cache holding
    exactly the entry just inserted: such a cache behaves as one of
    capacity 1. *)
Theorem nonpositive_capacity_keeps_last_entry
    (N : Z) (ops : list Op) (key : string) (value : Val) :
  N <= 0 ->
  UniversalLRU.cache (UniversalLRU.set (run ops (UniversalLRU.new N)) key value)
  = [(key, value)].
Proof.
  intros HN.
  destruct (nonpositive_run ops (UniversalLRU.new N)) as [Hm Hlen];
    [assumption | simpl; lia |].
  now apply nonpositive_set.
Qed.

Lemma nonpositive_capacity_keeps_last_entry_witness :
  UniversalLRU.cache
    (UniversalLRU.set
       (run [OSet "a" (VNumber 1); OGet "a"] (UniversalLRU.new (-3)))
       "b" (VNumber 2))
  = [("b", VNumber 2)].
Proof.
  apply (nonpositive_capacity_keeps_last_entry
           (-3) [OSet "a" (VNumber 1); OGet "a"] "b" (VNumber 2)).
  lia.
Defined.

(** C9 as stated fails: a cache built with capacity 0 is not refused and
    does store what is inserted. *)
Lemma zero_capacity_stores_an_entry :
  ~ (forall key value,
       UniversalLRU.cache (UniversalLRU.set (UniversalLRU.new 0) key value)
       = [])
  /\ UniversalLRU.size (UniversalLRU.set (UniversalLRU.new 0) "a" (VNumber 1))
     = 1
  /\ fst (UniversalLRU.get
            (UniversalLRU.set (UniversalLRU.new 0) "a" (VNumber 1)) "a")
     = VNumber 1.
Proof.
  split; [|split; reflexivity].
  intros H. specialize (H "a" (VNumber 1)). discriminate H.
Qed.

(** *** The value returned on a miss *)

Lemma map_get_has (key : string) (value : Val) (m : list (string * Val)) :
  UniversalLRU.map_get key m = Some value -> UniversalLRU.map_has key m = true.
Proof.
  induction m as [|[k v] m IH]; simpl; [discriminate|].
  unfold UniversalLRU.map_has in *. simpl.
  destruct (String.eqb k key); simpl; auto.
Qed.

(** C7, as the code has it.  A [get] of a key that is not cached returns
    [undefined]; a [get] of a cached key returns the stored value.  The two
    results differ exactly when the stored value is not [undefined]: a
    cached [null] is told apart from a miss, a cached [undefined] is not. *)
Theorem miss_marker_is_undefined
    (c : UniversalLRU.t) (absent key : string) (value : Val) :
  UniversalLRU.has c absent = false ->
  UniversalLRU.map_get key (UniversalLRU.cache c) = Some value ->
  fst (UniversalLRU.get c absent) = VUndefined
  /\ fst (UniversalLRU.get c key) = value
  /\ (fst (UniversalLRU.get c key) = fst (UniversalLRU.get c absent)
      <-> value = VUndefined)
  /\ (value = VNull ->
      fst (UniversalLRU.get c key) <> fst (UniversalLRU.get c absent)).
Proof.
  intros Habs Hget.
  assert (H1 : fst (UniversalLRU.get c absent) = VUndefined).
  { rewrite (get_miss c absent Habs). reflexivity. }
  assert (H2 : fst (UniversalLRU.get c key) = value).
  { unfold UniversalLRU.get.
    rewrite (map_get_has key value _ Hget), Hget. reflexivity. }
  rewrite H1, H2. repeat split; auto.
  intros ->. discriminate.
Qed.

Lemma miss_marker_is_undefined_witness :
  let c := UniversalLRU.set (UniversalLRU.new 128) "k" VNull in
  fst (UniversalLRU.get c "j") = VUndefined
  /\ fst (UniversalLRU.get c "k") = VNull
  /\ (fst (UniversalLRU.get c "k") = fst (UniversalLRU.get c "j")
      <-> VNull = VUndefined)
  /\ (VNull = VNull ->
      fst (UniversalLRU.get c "k") <> fst (UniversalLRU.get c "j")).
Proof.
  intros c.
  apply (miss_marker_is_undefined c "j" "k" VNull); reflexivity.
Defined.

(** C7 as stated fails: a key cached with the value [undefined] and a key
    that is not cached give the same result. *)
Lemma cached_undefined_reads_as_miss :
  ~ (forall (c : UniversalLRU.t) (cached absent : string),
       UniversalLRU.has c cached = true ->
       UniversalLRU.has c absent = false ->
       fst (UniversalLRU.get c cached) <> fst (UniversalLRU.get c absent)).
Proof.
  intros H.
  apply (H (UniversalLRU.set (UniversalLRU.new 128) "k" VUndefined) "k" "j");
    reflexivity.
Qed.

(** ** The key builder *)

Lemma append_assoc (a b c : string) : (a ++ b) ++ c = a ++ (b ++ c).
Proof. induction a as [|x a IH]; simpl; [reflexivity | now rewrite IH]. Qed.

Lemma join_element_ToString (a : Val) :
  is_nullish a = false -> join_element a = ToString a.
Proof. destruct a; simpl; intros H; try reflexivity; discriminate. Qed.

(** C8, as the code has it.  The call without arguments has the key [""].
    When no argument of a one- or two-argument call is [null] or
    [undefined], and none is an object that converts through a [toString]
    or [valueOf] of its own, the fast path gives the key the general path
    ([args.join('|')]) gives; three arguments and more take the general
    path. *)
Theorem fastKey_agrees_with_join (args : list Val) :
  ((List.length args <= 2)%nat ->
   Forall (fun a => is_nullish a = false /\ converts_by_default a = true)
          args) ->
  fastKey [] = "" /\ fastKey args = general_key args.
Proof.
  intros H. split; [reflexivity|].
  destruct args as [|a [|b [|c rest]]]; try reflexivity.
  - specialize (H ltac:(simpl; lia)).
    apply Forall_inv in H. destruct H as [Ha _].
    unfold fastKey, general_key. simpl.
    symmetry. now apply join_element_ToString.
  - specialize (H ltac:(simpl; lia)).
    pose proof (Forall_inv H) as [Ha _].
    pose proof (Forall_inv (Forall_inv_tail H)) as [Hb _].
    unfold fastKey, general_key, js_concat_right, js_concat_left. simpl.
    rewrite !join_element_ToString by assumption.
    apply append_assoc.
Qed.

Lemma fastKey_agrees_with_join_witness :
  fastKey [] = ""
  /\ fastKey [VNumber 5; VString "x"] = general_key [VNumber 5; VString "x"].
Proof.
  apply (fastKey_agrees_with_join [VNumber 5; VString "x"]).
  intros _. repeat constructor.
Defined.

(** C8 as stated fails: for the single argument [undefined] the fast path
    gives ["undefined"] and the general path gives [""]; likewise with
    [null] in a two-argument call. *)
Lemma fastKey_differs_on_undefined :
  fastKey [VUndefined] = "undefined"
  /\ general_key [VUndefined] = ""
  /\ fastKey [VUndefined] <> general_key [VUndefined]
  /\ fastKey [VNumber 1; VNull] <> general_key [VNumber 1; VNull].
Proof. repeat split; discriminate. Qed.

Example fastKey_examples :
  fastKey [VNumber 5; VNumber 3] = "5|3"
  /\ fastKey [VNumber 16] = "16"
  /\ fastKey [VNumber 1; VNumber 2; VNumber 3] = "1|2|3"
  /\ fastKey [VArray [VNumber 1; VNull; VNumber 2]] = "1,,2".
Proof. repeat split. Qed.

(** ** [super_cache] *)

Lemma set_on_empty (N : Z) (h m : Z) (key : string) (value : Val) :
  UniversalLRU.set
    {| UniversalLRU.maxSize := N; UniversalLRU.cache := [];
       UniversalLRU.hits := h; UniversalLRU.misses := m |} key value
  = {| UniversalLRU.maxSize := N; UniversalLRU.cache := [(key, value)];
       UniversalLRU.hits := h; UniversalLRU.misses := m |}.
Proof. unfold UniversalLRU.set. cbn. now destruct (0 >=? N). Qed.

Lemma get_single (N : Z) (h m : Z) (key : string) (value : Val) :
  UniversalLRU.get
    {| UniversalLRU.maxSize := N; UniversalLRU.cache := [(key, value)];
       UniversalLRU.hits := h; UniversalLRU.misses := m |} key
  = (value,
     {| UniversalLRU.maxSize := N; UniversalLRU.cache := [(key, value)];
        UniversalLRU.hits := h + 1; UniversalLRU.misses := m |}).
Proof.
  unfold UniversalLRU.get, UniversalLRU.map_has, UniversalLRU.map_delete,
    UniversalLRU.map_set.
  simpl. rewrite String.eqb_refl. reflexivity.
Qed.

(** The first two calls of a freshly cached function [g] with the same
    arguments, when the first call of [g] returns a value other than
    [undefined]: the second call is answered from the cache and leaves the
    state of [g] as the first call left it. *)
Lemma cached_twice (g : Fn) (propertyKey : string) (type : option string)
    (maxsize : option Z) (args : list Val) (w w1 w2 : World) (v : Val)
    (s1 : fstate g) :
  fcall g args (finit g) w = (Return v, s1, w1) ->
  v <> VUndefined ->
  let F := super_cache g propertyKey type maxsize in
  exists c1 c2,
    fcall F args (finit F) w = (Return v, (c1, s1), w1)
    /\ fcall F args (c1, s1) w2 = (Return v, (c2, s1), w2)
    /\ UniversalLRU.hits c2 = 1
    /\ UniversalLRU.misses c2 = 1.
Proof.
  intros Hg Hv F.
  set (N := cache_capacity
              match type with Some t => t | None => "balanced" end
              match maxsize with Some n => n | None => 128 end).
  exists {| UniversalLRU.maxSize := N;
            UniversalLRU.cache := [(fastKey args, v)];
            UniversalLRU.hits := 0; UniversalLRU.misses := 1 |}.
  exists {| UniversalLRU.maxSize := N;
            UniversalLRU.cache := [(fastKey args, v)];
            UniversalLRU.hits := 1; UniversalLRU.misses := 1 |}.
  assert (Hu : is_undefined v = false) by (destruct v; simpl; congruence).
  repeat split.
  - subst F. cbn -[UniversalLRU.set]. rewrite Hg.
    fold N. now rewrite set_on_empty.
  - subst F. cbn -[UniversalLRU.get]. rewrite get_single. now rewrite Hu.
Qed.

(** C3, as the code has it.  When the first call of the base function
    returns a value other than [undefined], the first two calls of the
    cached function with the same arguments return that value, invoke the
    base function once, and leave [cache_info().hits] at 1. *)
Theorem cache_serves_second_call
    (f : Fn) (propertyKey : string) (type : option string)
    (maxsize : option Z) (args : list Val) (w w1 w2 : World) (v : Val)
    (s1 : fstate f) :
  fcall f args (finit f) w = (Return v, s1, w1) ->
  v <> VUndefined ->
  let F := super_cache (counted f) propertyKey type maxsize in
  exists st1 st2,
    fcall F args (finit F) w = (Return v, st1, w1)
    /\ fcall F args st1 w2 = (Return v, st2, w2)
    /\ invocations f (snd st2) = 1
    /\ UniversalLRU.info_hits
         (cache_info (counted f) propertyKey type maxsize st2) = 1.
Proof.
  intros Hf Hv F.
  destruct (cached_twice (counted f) propertyKey type maxsize args w w1 w2 v
                         (1, s1)) as (c1 & c2 & H1 & H2 & Hh & _).
  - simpl. now rewrite Hf.
  - assumption.
  - exists (c1, (1, s1)), (c2, (1, s1)). auto.
Qed.

Lemma cache_serves_second_call_witness :
  let F := super_cache (counted identity) "wrapped" (Some "fast") None in
  exists st1 st2,
    fcall F [VNumber 5] (finit F) (mkWorld 0) = (Return (VNumber 5), st1, mkWorld 0)
    /\ fcall F [VNumber 5] st1 (mkWorld 7) = (Return (VNumber 5), st2, mkWorld 7)
    /\ invocations identity (snd st2) = 1
    /\ UniversalLRU.info_hits
         (cache_info (counted identity) "wrapped" (Some "fast") None st2) = 1.
Proof.
  apply (cache_serves_second_call identity "wrapped" (Some "fast") None
           [VNumber 5] (mkWorld 0) (mkWorld 0) (mkWorld 7) (VNumber 5) tt).
  - reflexivity.
  - discriminate.
Defined.

(** C3 as stated fails: a base function that returns [undefined] is
    invoked by both calls, although the second call counts as a hit. *)
Lemma cache_reinvokes_on_undefined :
  let F := super_cache (counted (constant VUndefined)) "wrapped" None None in
  let r1 := fcall F [VNumber 5] (finit F) (mkWorld 0) in
  let r2 := fcall F [VNumber 5] (snd (fst r1)) (mkWorld 0) in
  invocations (constant VUndefined) (snd (snd (fst r2))) = 2
  /\ UniversalLRU.info_hits
       (cache_info (counted (constant VUndefined)) "wrapped" None None
                   (snd (fst r2))) = 1.
Proof. split; reflexivity. Qed.

(** ** [super_matrix] *)

Section ComposerFacts.

Variable Config : Type.
Variable peripheral : PeripheralKey -> Config -> Decorator.

Let SMOptions := SuperMatrixOptions Config.

(** The wrappers are nested in the order of [decoratorOrder], the first
    innermost, and the cache is outside them all. *)
Lemma super_matrix_nesting (f : Fn) (pk : string) (o : SMOptions) :
  super_matrix peripheral f pk o = nested_in_precedence_order peripheral f pk o.
Proof. reflexivity. Qed.

Lemma cache_decorator_super_cache (c : CacheSetting) :
  exists type maxsize,
    cache_decorator c = fun f pk => super_cache f pk type maxsize.
Proof.
  destruct c as [type|type maxsize]; simpl; eauto.
Qed.

Lemma super_matrix_cache_over_metrics (f : Fn) (pk : string) (o : SMOptions)
    (c : CacheSetting) (m : MetricsOptions) :
  o_cache o = Some c -> o_metrics o = Some m ->
  super_matrix peripheral f pk o
  = cache_decorator c (metrics (below_metrics peripheral f pk o) pk m) pk.
Proof.
  intros Hc Hm. rewrite super_matrix_nesting.
  unfold nested_in_precedence_order. rewrite Hc, Hm. reflexivity.
Qed.

End ComposerFacts.

(** The function under a cache, when it is a [metrics] wrapper: of the first
    two calls with the same arguments only the first reaches the
    accumulator. *)
Lemma metrics_under_cache (g : Fn) (pk : string) (m : MetricsOptions)
    (type : option string) (maxsize : option Z)
    (args : list Val) (w w1 w2 : World) (v : Val) (s1 : fstate g) :
  fcall g args (finit g) w = (Return v, s1, w1) ->
  v <> VUndefined ->
  let F := super_cache (metrics g pk m) pk type maxsize in
  exists st1 st2,
    fcall F args (finit F) w = (Return v, st1, w1)
    /\ fcall F args st1 w2 = (Return v, st2, w2)
    /\ getMetrics g pk m (snd st2)
       = updateMetrics (metrics_track m) (clock w1) (clock w1 - clock w) VNull
                       (fst (finit (metrics g pk m))).
Proof.
  intros Hg Hv F.
  destruct (cached_twice (metrics g pk m) pk type maxsize args w w1 w2 v
              (updateMetrics (metrics_track m) (clock w1) (clock w1 - clock w)
                             VNull (fst (finit (metrics g pk m))), s1))
    as (c1 & c2 & H1 & H2 & _).
  - simpl. now rewrite Hg.
  - assumption.
  - eexists. eexists. split; [exact H1|]. split; [exact H2|]. reflexivity.
Qed.

(** C2, as the code has it.  [super_matrix] nests the configured wrappers in
    the fixed order validate, rate-limit, protect, var-guard, time-limit,
    async-retry, repeat, throttle, debounce, immutable, inherit-from, log,
    metrics, with the cache outermost.  With both cache and metrics
    configured the composed function is the cache around the metrics
    wrapper; when the first call of what lies under them returns a value
    other than [undefined], the first two calls with the same arguments
    update the metrics accumulator once, so that [calls] is 1 where calls
    are tracked. *)
Theorem super_matrix_order_and_cache_over_metrics
    (Config : Type) (peripheral : PeripheralKey -> Config -> Decorator)
    (f : Fn) (pk : string) (o : SuperMatrixOptions Config) :
  super_matrix peripheral f pk o = nested_in_precedence_order peripheral f pk o
  /\ forall (c : CacheSetting) (m : MetricsOptions),
       o_cache o = Some c -> o_metrics o = Some m ->
       let g := below_metrics peripheral f pk o in
       exists type maxsize,
         super_matrix peripheral f pk o
         = super_cache (metrics g pk m) pk type maxsize
         /\ forall (args : list Val) (w w1 w2 : World) (v : Val)
                   (s1 : fstate g),
              fcall g args (finit g) w = (Return v, s1, w1) ->
              v <> VUndefined ->
              let F := super_cache (metrics g pk m) pk type maxsize in
              exists st1 st2,
                fcall F args (finit F) w = (Return v, st1, w1)
                /\ fcall F args st1 w2 = (Return v, st2, w2)
                /\ getMetrics g pk m (snd st2)
                   = updateMetrics (metrics_track m) (clock w1)
                       (clock w1 - clock w) VNull
                       (fst (finit (metrics g pk m)))
                /\ (includes "calls" (metrics_track m) = true ->
                    calls (getMetrics g pk m (snd st2)) = 1).
Proof.
  split; [reflexivity|].
  intros c m Hc Hm g.
  destruct (cache_decorator_super_cache c) as (type & maxsize & Hcd).
  exists type, maxsize. split.
  - rewrite (super_matrix_cache_over_metrics Config peripheral f pk o c m Hc Hm), Hcd.
    reflexivity.
  - intros args w w1 w2 v s1 Hg Hv F.
    destruct (metrics_under_cache g pk m type maxsize args w w1 w2 v s1 Hg Hv)
      as (st1 & st2 & H1 & H2 & H3).
    exists st1, st2. repeat split; try assumption.
    intros Htr. rewrite H3. simpl. now rewrite Htr.
Qed.

Lemma super_matrix_order_and_cache_over_metrics_witness :
  let g := below_metrics no_peripheral identity "wrapped" sample_options in
  exists type maxsize,
    super_matrix no_peripheral identity "wrapped" sample_options
    = super_cache (metrics g "wrapped" sample_metrics) "wrapped" type maxsize
    /\ let F := super_cache (metrics g "wrapped" sample_metrics) "wrapped"
                            type maxsize in
       exists st1 st2,
         fcall F [VNumber 5] (finit F) (mkWorld 0)
         = (Return (VNumber 5), st1, mkWorld 0)
         /\ fcall F [VNumber 5] st1 (mkWorld 7)
            = (Return (VNumber 5), st2, mkWorld 7)
         /\ getMetrics g "wrapped" sample_metrics (snd st2)
            = updateMetrics (metrics_track sample_metrics) 0 0 VNull
                (fst (finit (metrics g "wrapped" sample_metrics)))
         /\ (includes "calls" (metrics_track sample_metrics) = true ->
             calls (getMetrics g "wrapped" sample_metrics (snd st2)) = 1).
Proof.
  intros g.
  destruct (super_matrix_order_and_cache_over_metrics
              unit no_peripheral identity "wrapped" sample_options)
    as [_ H].
  destruct (H (CacheType "fast") sample_metrics eq_refl eq_refl)
    as (type & maxsize & Heq & Hcalls).
  exists type, maxsize. split; [exact Heq|].
  apply (Hcalls [VNumber 5] (mkWorld 0) (mkWorld 0) (mkWorld 7) (VNumber 5) tt).
  - reflexivity.
  - discriminate.
Defined.

(** The order of the uninterpreted wrappers, read off a result. *)
Example super_matrix_tags_in_order :
  let F := super_matrix tagging identity "wrapped" tagged_options in
  fst (fst (fcall F [VString "x"] (finit F) (mkWorld 0)))
  = Return (VString
      "x.protect.varGuard.throttle.debounce.immutable.inherit.log").
Proof. reflexivity. Qed.

(** C2 as stated fails in its consequence: when the function under the
    cache returns [undefined], both calls reach the metrics wrapper and two
    invocations are recorded. *)
Lemma cache_over_metrics_records_undefined_twice :
  let F := super_matrix no_peripheral (constant VUndefined) "wrapped"
                        sample_options in
  let r1 := fcall F [VNumber 5] (finit F) (mkWorld 0) in
  let r2 := fcall F [VNumber 5] (snd (fst r1)) (mkWorld 0) in
  fst (fst r1) = Return VUndefined
  /\ fst (fst r2) = Return VUndefined
  /\ calls (fst (snd (snd (fst r2)))) = 2.
Proof. repeat split. Qed.

(** ** [repeat] *)

Lemma last_cons_default (e d : Val) (l : list Val) :
  last (e :: l) d = last l e.
Proof.
  revert e d. induction l as [|x l IH]; intros e d; [reflexivity|].
  change (last (e :: x :: l) d) with (last (x :: l) d).
  now rewrite (IH x d), (IH x e).
Qed.

(** The loop on a base function that throws [errs] in turn and then returns
    [v]: it stops at the return if it has iterations enough, and otherwise
    throws the last error it caught. *)
Lemma repeat_loop_spec (f : Fn) (times delay : Z) (args : list Val) (v : Val) :
  forall (remaining : nat) (errs : list Val) (i : Z) (lastError : Val)
         (s : fstate f) (n : Z) (w : World),
    behaves f args s (map Throw errs ++ [Return v])%list ->
    exists s' w',
      repeat_loop (counted f) times delay remaining i lastError args (n, s) w
      = (if (List.length errs <? remaining)%nat then Return v
         else Throw (last (firstn remaining errs) lastError), s', w')
      /\ fst s' = n + Z.of_nat (Nat.min (S (List.length errs)) remaining).
Proof.
  induction remaining as [|remaining IH];
    intros errs i lastError s n w Hb.
  - exists (n, s), w. simpl. split; [reflexivity|lia].
  - destruct errs as [|e errs]; simpl in Hb;
      destruct (Hb w) as (s' & w' & Hcall & Hrest).
    + exists (n + 1, s'), w'. simpl. rewrite Hcall. simpl.
      split; [reflexivity|lia].
    + set (w'' := if (i <? times - 1) && (delay >? 0)
                  then busy_wait delay w' else w').
      destruct (IH errs (i + 1) e s' (n + 1) w'' Hrest)
        as (s2 & w2 & Hloop & Hcount).
      exists s2, w2. split.
      * cbn [repeat_loop counted fcall snd fst]. rewrite Hcall.
        fold w''. rewrite Hloop.
        change (List.length (e :: errs) <? S remaining)%nat
          with (List.length errs <? remaining)%nat.
        change (firstn (S remaining) (e :: errs))
          with (e :: firstn remaining errs).
        now rewrite last_cons_default.
      * rewrite Hcount. simpl List.length.
        rewrite <- Nat.succ_min_distr. lia.
Qed.

(** C10.  A base function that throws on its first [k - 1] invocations and
    returns [v] on invocation [k], wrapped with [repeat(times)]: when
    [times >= k] the call returns [v] after [k] invocations; when
    [times < k] it invokes the base function [times] times and throws the
    last error caught ([lastError] is still [undefined] when [times] is 0
    and nothing was caught). *)
Theorem repeat_until_success
    (f : Fn) (pk : string) (times : nat) (delay : option Z)
    (args : list Val) (errs : list Val) (v : Val)
    (s : fstate f) (n : Z) (w : World) :
  behaves f args s (map Throw errs ++ [Return v])%list ->
  let k := S (List.length errs) in
  let F := repeat (counted f) pk (Some (Z.of_nat times)) delay in
  ((k <= times)%nat ->
   exists s' w',
     fcall F args (n, s) w = (Return v, s', w')
     /\ invocations f s' = n + Z.of_nat k)
  /\ ((times < k)%nat ->
      exists s' w',
        fcall F args (n, s) w
        = (Throw (last (firstn times errs) VUndefined), s', w')
        /\ invocations f s' = n + Z.of_nat times).
Proof.
  intros Hb k F.
  destruct (repeat_loop_spec f (Z.of_nat times)
              match delay with Some d => d | None => 0 end
              args v times errs 0 VUndefined s n w Hb)
    as (s' & w' & Hloop & Hcount).
  assert (Hcall : fcall F args (n, s) w
                  = (if (List.length errs <? times)%nat then Return v
                     else Throw (last (firstn times errs) VUndefined),
                     s', w')).
  { subst F. cbn [repeat fcall]. rewrite Nat2Z.id. exact Hloop. }
  split; intros Hk; exists s', w'; rewrite Hcall; unfold invocations;
    rewrite Hcount.
  - assert (Hlt : (List.length errs <? times)%nat = true)
      by (apply Nat.ltb_lt; unfold k in Hk; lia).
    rewrite Hlt. split; [reflexivity|]. unfold k in *. lia.
  - assert (Hlt : (List.length errs <? times)%nat = false)
      by (apply Nat.ltb_ge; unfold k in Hk; lia).
    rewrite Hlt. split; [reflexivity|]. unfold k in *. lia.
Qed.

Lemma flaky_behaves_3 (error value : Val) (args : list Val) :
  behaves (flaky 3 error value) args 0 [Throw error; Throw error; Return value].
Proof.
  simpl. intros w. exists 1, w. split; [reflexivity|].
  intros w1. exists 2, w1. split; [reflexivity|].
  intros w2. exists 3, w2. split; [reflexivity|exact I].
Qed.

Lemma repeat_until_success_witness :
  let f := flaky 3 (Error "Service temporarily unavailable")
                 (VString "Success on attempt 3") in
  let F := repeat (counted f) "unreliableMethod" (Some (Z.of_nat 3))
                  (Some 10) in
  ((3 <= 3)%nat ->
   exists s' w',
     fcall F [] (0, 0) (mkWorld 0)
     = (Return (VString "Success on attempt 3"), s', w')
     /\ invocations f s' = 0 + Z.of_nat 3)
  /\ ((3 < 3)%nat ->
      exists s' w',
        fcall F [] (0, 0) (mkWorld 0)
        = (Throw (last (firstn 3 [Error "Service temporarily unavailable";
                                  Error "Service temporarily unavailable"])
                       VUndefined), s', w')
        /\ invocations f s' = 0 + Z.of_nat 3).
Proof.
  intros f.
  apply (repeat_until_success f "unreliableMethod" 3 (Some 10) []
           [Error "Service temporarily unavailable";
            Error "Service temporarily unavailable"]
           (VString "Success on attempt 3") 0 0 (mkWorld 0)).
  apply flaky_behaves_3.
Defined.

(** The test of [repeat], and the same function given two attempts only. *)
Example repeat_runs :
  let f := flaky 3 (Error "unavailable") (VString "Success on attempt 3") in
  fcall (repeat (counted f) "unreliableMethod" (Some 3) (Some 10)) []
        (0, 0) (mkWorld 0)
  = (Return (VString "Success on attempt 3"), (3, 3), mkWorld 20)
  /\ fcall (repeat (counted f) "unreliableMethod" (Some 2) (Some 10)) []
           (0, 0) (mkWorld 0)
     = (Throw (Error "unavailable"), (2, 2), mkWorld 10)
  /\ fcall (repeat (counted f) "unreliableMethod" (Some 0) None) []
           (0, 0) (mkWorld 0)
     = (Throw VUndefined, (0, 0), mkWorld 0).
Proof. repeat split. Qed.

(** ** [async_retry] *)

(** An error of a kind that [retryOn] does not list ends the loop at once:
    the promise is rejected with that error and the base function is not
    invoked again. *)
Lemma retry_rethrows_unlisted (f : Fn) (pk : string) (config : AsyncRetryConfig)
    (remaining : nat) (i : Z) (lastError : Val) (args : list Val)
    (s s' : fstate f) (n : Z) (w w' : World) (o : Outcome) (error : Val) :
  fcall f args s w = (o, s', w') ->
  await o = Raised error ->
  retryOn config <> [] ->
  existsb (instanceof error) (retryOn config) = false ->
  retry_loop (counted f) pk config (S remaining) i lastError args (n, s) w
  = (VPromiseRejected error, (n + 1, s'), w').
Proof.
  intros Hcall Haw Hne Hno.
  cbn [retry_loop counted fcall fst snd]. rewrite Hcall, Haw, Hno.
  destruct (retryOn config) as [|c l]; [congruence|]. reflexivity.
Qed.

(** When every attempt fails with an error that is retried, the promise is
    rejected with a [RetryError] that has the configured attempt count, and
    that is the same whatever the errors were. *)
Lemma retry_loop_exhausted (f : Fn) (pk : string) (config : AsyncRetryConfig)
    (args : list Val) :
  forall (outs : list Outcome) (i : Z) (lastError : Val)
         (s : fstate f) (n : Z) (w : World),
    behaves f args s outs ->
    all_retried config outs ->
    exists s' w',
      retry_loop (counted f) pk config (List.length outs) i lastError args
                 (n, s) w
      = (VPromiseRejected
           (VError (MkError ["RetryError"; "DecoratorError"; "Error"]
                      "RetryError"
                      ("Method " ++ pk ++ " failed after "
                       ++ string_of_Z (attempts config) ++ " attempts")
                      (Some "asyncRetry") None None None None
                      (Some (attempts config)))),
         s', w')
      /\ fst s' = n + Z.of_nat (List.length outs).
Proof.
  induction outs as [|o outs IH]; intros i lastError s n w Hb Hall.
  - exists (n, s), w. simpl. split; [reflexivity|lia].
  - simpl in Hb. destruct (Hb w) as (s1 & w1 & Hcall & Hrest).
    inversion Hall as [|? ? (error & Haw & Hretry) Hall']; subst.
    set (w'' := if i <? attempts config - 1 then
                  sleep (if exponentialBackoff config
                         then delay config * 2 ^ i
                         else delay config) w1
                else w1).
    destruct (IH (i + 1) error s1 (n + 1) w'' Hrest Hall')
      as (s2 & w2 & Hloop & Hcount).
    exists s2, w2. split.
    + cbn [retry_loop counted fcall fst snd List.length].
      rewrite Hcall, Haw.
      assert (Hgo : (0 <? Z.of_nat (List.length (retryOn config)))
                    && negb (existsb (instanceof error) (retryOn config))
                    = false).
      { destruct Hretry as [-> | ->]; [reflexivity|].
        apply andb_false_r. }
      rewrite Hgo. fold w''. exact Hloop.
    + rewrite Hcount. simpl List.length. lia.
Qed.

(** C4 at a failing input: [async_retry({ attempts: 2, delay: 10 })] around
    an async function that always rejects with [new Error('Network error')].
    The base function is invoked twice and the promise is rejected with a
    [RetryError] that has [attempts = 2]; its [originalError] is not set and
    no field of it holds the last error. *)
Theorem retry_error_omits_last_error :
  let f := constant (VPromiseRejected (Error "Network error")) in
  let F := async_retry (counted f) "fetchData"
             {| ar_attempts := Some 2; ar_delay := Some 10;
                ar_exponentialBackoff := None; ar_retryOn := None |} in
  exists e,
    fcall F [] (finit F) (mkWorld 0)
    = (Return (VPromiseRejected (VError e)), (2, tt), mkWorld 10)
    /\ e = MkError ["RetryError"; "DecoratorError"; "Error"] "RetryError"
                   "Method fetchData failed after 2 attempts"
                   (Some "asyncRetry") None None None None (Some 2)
    /\ error_attempts e = Some 2
    /\ error_originalError e = None.
Proof. eexists. repeat split. Qed.

(** A run that succeeds on the third attempt, with exponential backoff, and
    a run ended at once by an error that [retryOn] does not list. *)
Example async_retry_runs :
  let f := flaky 3 (Error "Network error") (VString "Data fetched successfully") in
  fcall (async_retry (counted f) "fetchData"
           {| ar_attempts := Some 3; ar_delay := Some 10;
              ar_exponentialBackoff := Some true; ar_retryOn := None |})
        [] (0, 0) (mkWorld 0)
  = (Return (VPromiseFulfilled (VString "Data fetched successfully")),
     (3, 3), mkWorld 30)
  /\ fcall (async_retry (counted f) "fetchData"
              {| ar_attempts := Some 3; ar_delay := Some 10;
                 ar_exponentialBackoff := None;
                 ar_retryOn := Some ["TimeoutError"] |})
           [] (0, 0) (mkWorld 0)
     = (Return (VPromiseRejected (Error "Network error")), (1, 1), mkWorld 0).
Proof. repeat split. Qed.

(** ** [rate_limit] *)

Section RateLimitFacts.

Variable f : Fn.
Variable pk : string.

Let F := rate_limit (counted f) pk two_per_second.

(** The first call ever: the base function is invoked and its outcome is
    passed on. *)
Lemma rate_limit_first_call (args : list Val) (w : World) :
  fcall F args (finit F) w
  = let '(o, s', w') := fcall f args (finit f) w in
    (o, ([("global",
           after_call {| count := 0; start := clock w;
                         lastResult := VUndefined |} o)],
         (1, s')), w').
Proof.
  unfold F. cbn.
  assert (H : (clock w - clock w >? 1000) = false).
  { rewrite Z.sub_diag. reflexivity. }
  rewrite H. cbn.
  destruct (fcall f args (finit f) w) as [[[r|e] s'] w']; reflexivity.
Qed.

(** A call under the limit: the base function is invoked. *)
Lemma rate_limit_call_through (d : CallData) (args : list Val) (n : Z)
    (s : fstate f) (w : World) :
  count (current_window d (clock w)) < 2 ->
  fcall F args ([("global", d)], (n, s)) w
  = let '(o, s', w') := fcall f args s w in
    (o, ([("global", after_call (current_window d (clock w)) o)],
         (n + 1, s')), w').
Proof.
  intros Hc. unfold F, current_window in *. cbn.
  destruct (clock w - start d >? 1000); cbn in *.
  - destruct (fcall f args s w) as [[[r|e] s'] w']; reflexivity.
  - assert (H : (count d >=? 2) = false).
    { destruct (count d >=? 2) eqn:E; [|reflexivity].
      apply Z.geb_le in E. lia. }
    rewrite H.
    destruct (fcall f args s w) as [[[r|e] s'] w']; reflexivity.
Qed.

(** A call at the limit: a [RateLimitError] is thrown and the base function
    is not invoked. *)
Lemma rate_limit_call_rejected (d : CallData) (args : list Val) (n : Z)
    (s : fstate f) (w : World) :
  clock w - start d <= 1000 -> 2 <= count d ->
  fcall F args ([("global", d)], (n, s)) w
  = (Throw (VError (RateLimitError "Rate limit exceeded"
                      (1000 - (clock w - start d)))),
     ([("global", d)], (n, s)), w).
Proof.
  intros Ht Hc. unfold F. cbn.
  assert (H1 : (clock w - start d >? 1000) = false).
  { destruct (clock w - start d >? 1000) eqn:E; [|reflexivity].
    apply Z.gtb_lt in E. lia. }
  assert (H2 : (count d >=? 2) = true) by (apply Z.geb_le; lia).
  rewrite H1. cbn. rewrite H2. destruct d; reflexivity.
Qed.

End RateLimitFacts.

(** C5, as the code has it.  Under [{ requests: 2, window: '1s', strategy:
    'reject' }], with the second and the third call made no later than a
    second after the first and the fourth more than a second after it: the
    first two calls invoke the base function and pass its outcome on; the
    third throws a [RateLimitError] and leaves the base function alone, and
    the [retryAfter] the error carries is the time left of the second,
    positive when the call comes less than a second after the first and 0
    at exactly one second; the fourth invokes the base function again. *)
Theorem rate_limit_two_per_second
    (f : Fn) (pk : string) (a1 a2 a3 a4 : list Val) (w1 w2 w3 w4 : World) :
  clock w2 - clock w1 <= 1000 ->
  clock w3 - clock w1 <= 1000 ->
  1000 < clock w4 - clock w1 ->
  let F := rate_limit (counted f) pk two_per_second in
  let '(o1, s1, w1') := fcall f a1 (finit f) w1 in
  let '(o2, s2, w2') := fcall f a2 s1 w2 in
  let '(o4, s4, w4') := fcall f a4 s2 w4 in
  exists st1 st2 st4 e retryAfter,
    fcall F a1 (finit F) w1 = (o1, st1, w1')
    /\ snd st1 = (1, s1)
    /\ fcall F a2 st1 w2 = (o2, st2, w2')
    /\ snd st2 = (2, s2)
    /\ fcall F a3 st2 w3 = (Throw (VError e), st2, w3)
    /\ instanceof (VError e) "RateLimitError" = true
    /\ error_name e = "RateLimitError"
    /\ error_message e = "Rate limit exceeded"
    /\ error_retryAfter e = Some retryAfter
    /\ retryAfter = 1000 - (clock w3 - clock w1)
    /\ (clock w3 - clock w1 < 1000 -> 0 < retryAfter)
    /\ (clock w3 - clock w1 = 1000 -> retryAfter = 0)
    /\ fcall F a4 st2 w4 = (o4, st4, w4')
    /\ snd st4 = (3, s4).
Proof.
  intros H2 H3 H4 F.
  pose proof (rate_limit_first_call f pk a1 w1) as E1. fold F in E1.
  destruct (fcall f a1 (finit f) w1) as [[o1 s1] w1'] eqn:B1.
  set (d1 := after_call {| count := 0; start := clock w1;
                           lastResult := VUndefined |} o1) in *.
  assert (Hw2 : current_window d1 (clock w2) = d1).
  { unfold current_window. simpl.
    destruct (clock w2 - clock w1 >? 1000) eqn:E; [|reflexivity].
    apply Z.gtb_lt in E. lia. }
  pose proof (rate_limit_call_through f pk d1 a2 1 s1 w2) as E2.
  fold F in E2. rewrite Hw2 in E2. specialize (E2 ltac:(simpl; lia)).
  destruct (fcall f a2 s1 w2) as [[o2 s2] w2'] eqn:B2.
  set (d2 := after_call d1 o2) in *.
  pose proof (rate_limit_call_rejected f pk d2 a3 2 s2 w3) as E3.
  fold F in E3. simpl in E3.
  specialize (E3 ltac:(lia) ltac:(lia)).
  assert (Hw4 : current_window d2 (clock w4)
                = {| count := 0; start := clock w4;
                     lastResult := lastResult d2 |}).
  { unfold current_window. simpl.
    destruct (clock w4 - clock w1 >? 1000) eqn:E; [reflexivity|].
    rewrite Z.gtb_ltb in E. apply Z.ltb_ge in E. lia. }
  pose proof (rate_limit_call_through f pk d2 a4 2 s2 w4) as E4.
  fold F in E4. rewrite Hw4 in E4. specialize (E4 ltac:(simpl; lia)).
  destruct (fcall f a4 s2 w4) as [[o4 s4] w4'] eqn:B4.
  eexists. eexists. eexists. eexists.
  exists (1000 - (clock w3 - clock w1)).
  split; [exact E1|]. split; [reflexivity|].
  split; [exact E2|]. split; [reflexivity|].
  split; [exact E3|].
  split; [reflexivity|]. split; [reflexivity|]. split; [reflexivity|].
  split; [reflexivity|]. split; [reflexivity|].
  split; [lia|]. split; [lia|].
  split; [exact E4|]. reflexivity.
Qed.

Lemma rate_limit_two_per_second_witness :
  let F := rate_limit (counted identity) "makeRequest" two_per_second in
  exists st1 st2 st4 e retryAfter,
    fcall F [VString "data1"] (finit F) (mkWorld 0)
    = (Return (VString "data1"), st1, mkWorld 0)
    /\ snd st1 = (1, tt)
    /\ fcall F [VString "data2"] st1 (mkWorld 10)
       = (Return (VString "data2"), st2, mkWorld 10)
    /\ snd st2 = (2, tt)
    /\ fcall F [VString "data3"] st2 (mkWorld 20)
       = (Throw (VError e), st2, mkWorld 20)
    /\ instanceof (VError e) "RateLimitError" = true
    /\ error_name e = "RateLimitError"
    /\ error_message e = "Rate limit exceeded"
    /\ error_retryAfter e = Some retryAfter
    /\ retryAfter = 1000 - (20 - 0)
    /\ (20 - 0 < 1000 -> 0 < retryAfter)
    /\ (20 - 0 = 1000 -> retryAfter = 0)
    /\ fcall F [VString "data4"] st2 (mkWorld 1100)
       = (Return (VString "data4"), st4, mkWorld 1100)
    /\ snd st4 = (3, tt).
Proof.
  apply (rate_limit_two_per_second identity "makeRequest"
           [VString "data1"] [VString "data2"] [VString "data3"]
           [VString "data4"]
           (mkWorld 0) (mkWorld 10) (mkWorld 20) (mkWorld 1100));
    simpl; lia.
Defined.

(** C5 as stated fails at the end of the window.  A third call made exactly
    one second after the first is neither answered as a call within the
    window is said to be, nor as a call after it: it is rejected without
    the base function being invoked, and the [retryAfter] it carries is 0,
    which is not positive. *)
Lemma rate_limit_third_call_at_one_second :
  let F := rate_limit (counted identity) "makeRequest" two_per_second in
  let r1 := fcall F [VString "data1"] (finit F) (mkWorld 0) in
  let r2 := fcall F [VString "data2"] (snd (fst r1)) (mkWorld 10) in
  let r3 := fcall F [VString "data3"] (snd (fst r2)) (mkWorld 1000) in
  fst (fst r1) = Return (VString "data1")
  /\ fst (fst r2) = Return (VString "data2")
  /\ (exists e,
        fst (fst r3) = Throw (VError e)
        /\ instanceof (VError e) "RateLimitError" = true
        /\ error_retryAfter e = Some 0
        /\ ~ (exists retryAfter,
                error_retryAfter e = Some retryAfter /\ 0 < retryAfter))
  /\ fst (fst r3) <> Return (VString "data3")
  /\ invocations identity (snd (snd (fst r2))) = 2
  /\ invocations identity (snd (snd (fst r3))) = 2.
Proof.
  cbv zeta. split; [reflexivity|]. split; [reflexivity|].
  split.
  - eexists. split; [reflexivity|]. split; [reflexivity|].
    split; [reflexivity|].
    intros [retryAfter [E Hpos]]. vm_compute in E.
    injection E as <-. lia.
  - split; [discriminate|]. split; reflexivity.
Qed.

(** At exactly one second after the start of the window the call is still
    counted in that window: it is rejected, with [retryAfter] 0. *)
Example rate_limit_at_the_boundary :
  let F := rate_limit (counted identity) "makeRequest" two_per_second in
  let r1 := fcall F [VString "data1"] (finit F) (mkWorld 0) in
  let r2 := fcall F [VString "data2"] (snd (fst r1)) (mkWorld 10) in
  let r3 := fcall F [VString "data3"] (snd (fst r2)) (mkWorld 1000) in
  fst (fst r3) = Throw (VError (RateLimitError "Rate limit exceeded" 0))
  /\ invocations identity (snd (snd (fst r3))) = 2.
Proof. split; reflexivity. Qed.

(** ** [validate] *)

(** A violated parameter rule stops the call before the base function is
    invoked. *)
Lemma validate_rejects_before_invoking (f : Fn) (pk : string)
    (options : ValidationOptions) (rules : list (option ValidationRule))
    (args : list Val) (thrown : Val) (n : Z) (s : fstate f) (w : World) :
  v_params options = Some rules ->
  check_params rules 0 args = Some thrown ->
  fcall (validate (counted f) pk options) args (n, s) w
  = (Throw thrown, (n, s), w).
Proof. intros Hp Hc. cbn. rewrite Hp, Hc. reflexivity. Qed.

(** What [check_params] throws comes from the first rule, in parameter
    order, that throws. *)
Lemma check_params_first_violation (rules : list (option ValidationRule))
    (args : list Val) (thrown : Val) :
  forall index,
    0 <= index ->
    check_params rules index args = Some thrown ->
    exists (j : nat) (rule : ValidationRule),
      nth_error rules j = Some (Some rule)
      /\ check_param rule (index + Z.of_nat j)
                     (nth (Z.to_nat (index + Z.of_nat j)) args VUndefined)
         = Some thrown
      /\ forall (j' : nat) (rule' : ValidationRule),
           (j' < j)%nat -> nth_error rules j' = Some (Some rule') ->
           check_param rule' (index + Z.of_nat j')
                       (nth (Z.to_nat (index + Z.of_nat j')) args VUndefined)
           = None.
Proof.
  induction rules as [|r rules IH]; intros index Hi Hc; [discriminate|].
  simpl in Hc.
  destruct (match r with
            | Some r0 =>
                check_param r0 index (nth (Z.to_nat index) args VUndefined)
            | None => None
            end) as [t|] eqn:Hr.
  - destruct r as [r0|]; [|discriminate]. inversion Hc; subst.
    exists O, r0. rewrite Z.add_0_r. repeat split; auto.
    intros j' rule' Hlt. lia.
  - destruct (IH (index + 1) ltac:(lia) Hc) as (j & rule & Hn & Hch & Hbefore).
    exists (S j), rule.
    replace (index + Z.of_nat (S j)) with (index + 1 + Z.of_nat j) by lia.
    repeat split; auto.
    intros j' rule' Hlt Hn'. destruct j' as [|j'].
    + simpl in Hn'. inversion Hn'; subst. rewrite Z.add_0_r. exact Hr.
    + replace (index + Z.of_nat (S j')) with (index + 1 + Z.of_nat j') by lia.
      apply Hbefore; [lia|exact Hn'].
Qed.

(** A [ValidationError] thrown for a parameter has the field name
    [param<index>]. *)
Lemma check_param_names_position (rule : ValidationRule) (index : Z)
    (value : Val) (thrown : Val) :
  check_param rule index value = Some thrown ->
  thrown = cannot_read_length_of value
  \/ exists message,
       thrown = VError (ValidationError message
                          ("param" ++ string_of_Z index)).
Proof.
  assert (Hpe : forall message,
             param_error index message = Some thrown ->
             thrown = cannot_read_length_of value
             \/ exists message,
                  thrown = VError (ValidationError message
                                     ("param" ++ string_of_Z index))).
  { unfold param_error. intros message H. inversion H. eauto. }
  unfold check_param, and_then.
  destruct (check_required rule index value) eqn:E1.
  { unfold check_required in E1. intros H. inversion H; subst.
    destruct (r_required rule && is_nullish value); [eauto|discriminate]. }
  destruct (check_type rule index value) eqn:E2.
  { unfold check_type in E2. intros H. inversion H; subst.
    destruct (type_mismatch rule value); [eauto|discriminate]. }
  destruct (check_min rule index value) eqn:E3.
  { unfold check_min in E3. intros H. inversion H; subst.
    destruct (r_min rule); [|discriminate].
    destruct (type_is rule "string").
    - destruct (length_property value); [|inversion E3; auto].
      destruct (lt_number v z); [eauto|discriminate].
    - destruct (type_is rule "number" && lt_number value z);
        [eauto|discriminate]. }
  destruct (check_max rule index value) eqn:E4.
  { unfold check_max in E4. intros H. inversion H; subst.
    destruct (r_max rule); [|discriminate].
    destruct (type_is rule "string").
    - destruct (length_property value); [|inversion E4; auto].
      destruct (gt_number v z); [eauto|discriminate].
    - destruct (type_is rule "number" && gt_number value z);
        [eauto|discriminate]. }
  destruct (check_pattern rule index value) eqn:E5.
  { unfold check_pattern in E5. intros H. inversion H; subst.
    destruct (r_pattern rule); [|discriminate].
    destruct value; try discriminate.
    destruct (b s); [discriminate|eauto]. }
  unfold check_custom. intros H.
  destruct (r_validate rule); [|discriminate].
  destruct (b value); [discriminate|eauto].
Qed.

(** The checks of one rule are made in the order required, type, min, max,
    pattern, custom predicate: a check is reached only when those before it
    threw nothing, and what it throws is what the rule throws. *)
Lemma check_param_order (rule : ValidationRule) (index : Z) (value : Val) :
  (forall t, check_required rule index value = Some t ->
             check_param rule index value = Some t)
  /\ (check_required rule index value = None ->
      (forall t, check_type rule index value = Some t ->
                 check_param rule index value = Some t)
      /\ (check_type rule index value = None ->
          (forall t, check_min rule index value = Some t ->
                     check_param rule index value = Some t)
          /\ (check_min rule index value = None ->
              (forall t, check_max rule index value = Some t ->
                         check_param rule index value = Some t)
              /\ (check_max rule index value = None ->
                  (forall t, check_pattern rule index value = Some t ->
                             check_param rule index value = Some t)
                  /\ (check_pattern rule index value = None ->
                      check_param rule index value
                      = check_custom rule index value))))).
Proof.
  unfold check_param, and_then.
  split; [intros t ->; reflexivity|]. intros ->.
  split; [intros t ->; reflexivity|]. intros ->.
  split; [intros t ->; reflexivity|]. intros ->.
  split; [intros t ->; reflexivity|]. intros ->.
  split; [intros t ->; reflexivity|]. intros ->. reflexivity.
Qed.

(** The result is checked for [required], [type] and the custom predicate
    only: [min], [max] and [pattern] of the return rule are not read. *)
Lemma check_return_ignores_bounds (rule : ValidationRule) (result : Val) :
  check_return rule result = check_return (without_bounds rule) result.
Proof. reflexivity. Qed.

(** C6 at a failing input: [validate({ return: { type: 'number',
    required: true, min: 5 } })] around [() => 3].  The call returns 3;
    the same rule, given for a parameter, rejects the value 3. *)
Theorem return_value_bounds_not_checked :
  let F := validate (counted (constant (VNumber 3))) "compute"
             {| v_params := None; v_return := Some at_least_5;
                v_throwOnError := None; v_logErrors := None |} in
  fcall F [] (finit F) (mkWorld 0) = (Return (VNumber 3), (1, tt), mkWorld 0)
  /\ check_return at_least_5 (VNumber 3) = None
  /\ check_param at_least_5 0 (VNumber 3)
     = Some (VError (ValidationError "Parameter 0 must be >= 5" "param0")).
Proof. repeat split. Qed.

(** The parameter checks on the rule of the tests, in their order. *)
Example check_param_runs :
  check_param name_rule 0 VUndefined
  = Some (VError (ValidationError "Parameter 0 is required" "param0"))
  /\ check_param name_rule 0 (VNumber 123)
     = Some (VError (ValidationError "Parameter 0 must be of type string"
                                     "param0"))
  /\ check_param name_rule 0 (VString "Al")
     = Some (VError (ValidationError "Parameter 0 must be >= 3" "param0"))
  /\ check_param name_rule 0 (VString "Alice") = None
  /\ check_params [Some name_rule; Some at_least_5] 0
                  [VString "Bob"; VNumber 4]
     = Some (VError (ValidationError "Parameter 1 must be >= 5" "param1")).
Proof. repeat split. Qed.

(** An optional string parameter with a bound, when the argument is left
    out: reading [value.length] throws a [TypeError]. *)
Example optional_string_with_min_throws_TypeError :
  check_param {| r_type := Some "string"; r_required := false;
                 r_min := Some 3; r_max := None; r_pattern := None;
                 r_validate := None; r_message := None |} 0 VUndefined
  = Some cannot_read_length.
Proof. reflexivity. Qed.

(** * Further properties *)

(** ** The bounded cache: lookups *)

Section LookupFacts.

Import UniversalLRU.

Lemma map_get_app (k : string) (m1 m2 : list (string * Val)) :
  map_get k (m1 ++ m2)
  = match map_get k m1 with Some v => Some v | None => map_get k m2 end.
Proof.
  induction m1 as [|[k0 v0] m1 IH]; simpl; [reflexivity|].
  now destruct (String.eqb k0 k).
Qed.

Lemma map_get_delete_same (k : string) (m : list (string * Val)) :
  map_get k (map_delete k m) = None.
Proof.
  unfold map_delete. induction m as [|[k0 v0] m IH]; simpl; [reflexivity|].
  destruct (String.eqb k0 k) eqn:E; simpl; [assumption|]. now rewrite E.
Qed.

Lemma map_get_delete_other (k k' : string) (m : list (string * Val)) :
  k' <> k -> map_get k' (map_delete k m) = map_get k' m.
Proof.
  intros Hne. unfold map_delete.
  induction m as [|[k0 v0] m IH]; simpl; [reflexivity|].
  destruct (String.eqb_spec k0 k) as [->|Hk]; simpl.
  - destruct (String.eqb_spec k k'); [congruence|assumption].
  - now rewrite IH.
Qed.

Lemma map_has_false_get (k : string) (m : list (string * Val)) :
  map_has k m = false -> map_get k m = None.
Proof.
  unfold map_has. induction m as [|[k0 v0] m IH]; simpl; [reflexivity|].
  destruct (String.eqb k0 k); simpl; [discriminate|assumption].
Qed.

Lemma map_has_true_get (k : string) (m : list (string * Val)) :
  map_has k m = true -> exists v, map_get k m = Some v.
Proof.
  unfold map_has. induction m as [|[k0 v0] m IH]; simpl; [discriminate|].
  destruct (String.eqb k0 k); simpl; eauto.
Qed.

(** What [set] leaves in the map: the new entry at the end of the old map,
    from which at most one key has been deleted. *)
Lemma set_cache_shape (c : t) (key : string) (value : Val) :
  exists m1,
    cache (set c key value) = (m1 ++ [(key, value)])%list
    /\ map_has key m1 = false
    /\ (m1 = cache c \/ exists x, m1 = map_delete x (cache c)).
Proof.
  unfold set. simpl.
  destruct (map_has key (cache c)) eqn:Hh.
  - exists (map_delete key (cache c)).
    rewrite map_set_absent by apply map_has_delete_same.
    repeat split; [apply map_has_delete_same | eauto].
  - destruct (map_size (cache c) >=? maxSize c).
    + destruct (map_keys (cache c)) as [|firstKey rest].
      * exists (cache c). rewrite map_set_absent by assumption. auto.
      * exists (map_delete firstKey (cache c)).
        rewrite map_set_absent by now apply map_has_delete_other.
        repeat split; [now apply map_has_delete_other | eauto].
    + exists (cache c). rewrite map_set_absent by assumption. auto.
Qed.

End LookupFacts.

(** X1.  Insert then look up: whatever the cache held and whatever its
    capacity, a [get] of the key just set is a hit that returns the value
    just set. *)
Theorem get_after_set (c : UniversalLRU.t) (key : string) (value : Val) :
  UniversalLRU.has (UniversalLRU.set c key value) key = true
  /\ fst (UniversalLRU.get (UniversalLRU.set c key value) key) = value
  /\ UniversalLRU.hits (snd (UniversalLRU.get (UniversalLRU.set c key value)
                                              key))
     = UniversalLRU.hits c + 1.
Proof.
  destruct (set_cache_shape c key value) as (m1 & Hc & Habs & _).
  assert (Hget : UniversalLRU.map_get key
                   (UniversalLRU.cache (UniversalLRU.set c key value))
                 = Some value).
  { rewrite Hc, map_get_app, (map_has_false_get key m1 Habs).
    simpl. now rewrite String.eqb_refl. }
  assert (Hhas : UniversalLRU.has (UniversalLRU.set c key value) key = true).
  { unfold UniversalLRU.has. now apply (map_get_has key value). }
  split; [exact Hhas|].
  unfold UniversalLRU.has in Hhas. unfold UniversalLRU.get.
  rewrite Hhas, Hget. split; reflexivity.
Qed.

(** X2.  A [get], hit or miss, changes no stored value: every key reads the
    same in the map before and after it. *)
Theorem get_preserves_entries (c : UniversalLRU.t) (key k : string) :
  UniversalLRU.map_get k (UniversalLRU.cache (snd (UniversalLRU.get c key)))
  = UniversalLRU.map_get k (UniversalLRU.cache c).
Proof.
  unfold UniversalLRU.get.
  destruct (UniversalLRU.map_has key (UniversalLRU.cache c)) eqn:Hh;
    [|reflexivity].
  simpl. rewrite map_set_absent by apply map_has_delete_same.
  rewrite map_get_app.
  destruct (map_has_true_get key _ Hh) as [v Hv]. rewrite Hv.
  destruct (String.eqb_spec key k) as [->|Hne].
  - rewrite map_get_delete_same. simpl. rewrite String.eqb_refl.
    now rewrite Hv.
  - rewrite map_get_delete_other by congruence.
    destruct (UniversalLRU.map_get k (UniversalLRU.cache c)); [reflexivity|].
    simpl. destruct (String.eqb_spec key k); [congruence|reflexivity].
Qed.

(** X3.  A [set] changes the value of no other key that stays in the cache:
    a key other than the one set, if still stored afterwards, reads as
    before. *)
Theorem set_preserves_other_entries
    (c : UniversalLRU.t) (key k : string) (value : Val) :
  k <> key ->
  UniversalLRU.has (UniversalLRU.set c key value) k = true ->
  UniversalLRU.map_get k (UniversalLRU.cache (UniversalLRU.set c key value))
  = UniversalLRU.map_get k (UniversalLRU.cache c).
Proof.
  intros Hne Hin.
  destruct (set_cache_shape c key value) as (m1 & Hc & Habs & Hm1).
  unfold UniversalLRU.has in Hin. rewrite Hc in *.
  assert (Hlast : UniversalLRU.map_get k [(key, value)] = None).
  { simpl. destruct (String.eqb_spec key k); [congruence|reflexivity]. }
  rewrite map_get_app, Hlast.
  assert (Hk : UniversalLRU.map_has k m1 = true).
  { apply map_has_In in Hin. rewrite map_keys_app, in_app_iff in Hin.
    destruct Hin as [Hin|[Hin|[]]]; [now apply map_has_In|].
    simpl in Hin. congruence. }
  destruct (map_has_true_get k m1 Hk) as [v Hv]. rewrite Hv.
  destruct Hm1 as [->|[x ->]]; [now rewrite Hv|].
  destruct (String.eqb_spec k x) as [->|Hx].
  - rewrite map_get_delete_same in Hv. discriminate.
  - rewrite map_get_delete_other in Hv by assumption. now rewrite Hv.
Qed.

Lemma set_preserves_other_entries_witness :
  UniversalLRU.map_get "a"
    (UniversalLRU.cache
       (UniversalLRU.set
          (run [OSet "a" (VNumber 1); OSet "b" (VNumber 2)]
               (UniversalLRU.new 2)) "b" (VNumber 3)))
  = UniversalLRU.map_get "a"
      (UniversalLRU.cache (run [OSet "a" (VNumber 1); OSet "b" (VNumber 2)]
                               (UniversalLRU.new 2))).
Proof.
  apply (set_preserves_other_entries
           (run [OSet "a" (VNumber 1); OSet "b" (VNumber 2)]
                (UniversalLRU.new 2)) "b" "a" (VNumber 3)).
  - discriminate.
  - reflexivity.
Defined.

(** X4.  The counters count the lookups: after any sequence of operations
    [hits + misses] has grown by the number of [get] operations, and neither
    counter has gone down; a [set] moves neither. *)
Theorem counters_count_gets (ops : list Op) (c : UniversalLRU.t) :
  UniversalLRU.hits (run ops c) + UniversalLRU.misses (run ops c)
  = UniversalLRU.hits c + UniversalLRU.misses c + count_gets ops
  /\ UniversalLRU.hits c <= UniversalLRU.hits (run ops c)
  /\ UniversalLRU.misses c <= UniversalLRU.misses (run ops c).
Proof.
  revert c. induction ops as [|o ops IH]; intros c.
  - unfold count_gets. simpl. lia.
  - simpl. destruct (IH (step c o)) as (H1 & H2 & H3).
    assert (Hstep :
      UniversalLRU.hits (step c o) + UniversalLRU.misses (step c o)
      = UniversalLRU.hits c + UniversalLRU.misses c
        + match o with OGet _ => 1 | _ => 0 end
      /\ UniversalLRU.hits c <= UniversalLRU.hits (step c o)
      /\ UniversalLRU.misses c <= UniversalLRU.misses (step c o)).
    { destruct o as [key|key value]; simpl.
      - unfold UniversalLRU.get.
        destruct (UniversalLRU.map_has key (UniversalLRU.cache c)); simpl; lia.
      - lia. }
    destruct Hstep as (S1 & S2 & S3).
    unfold count_gets in *. destruct o; simpl in *; lia.
Qed.

(** ** The bounded cache: setting a stored key again *)

Lemma run_recency_ordered (ops : list Op) :
  forall (c : UniversalLRU.t) (trace : list string),
    recency_ordered c trace ->
    recency_ordered (run ops c) (touches ops c trace).
Proof.
  induction ops as [|o ops IH]; intros c trace Hord; simpl; [assumption|].
  apply IH. now apply step_recency_ordered.
Qed.

Lemma remove_key_length_NoDup (key : string) (l : list string) :
  NoDup l -> In key l ->
  S (List.length (remove_key key l)) = List.length l.
Proof.
  induction l as [|k l IH]; intros Hnd Hin; [contradiction|].
  apply NoDup_cons_iff in Hnd as [Hk Hnd]. simpl.
  destruct (String.eqb_spec k key) as [->|Hne]; simpl.
  - now rewrite remove_key_absent.
  - destruct Hin as [Hin|Hin]; [congruence|]. now rewrite IH.
Qed.

(** X5.  In a cache built from the empty one by any operations, whatever
    its capacity, setting a key that is stored moves it to the most recent
    position and changes nothing else: the size is the same and every key
    that was stored is still stored. *)
Theorem reinsert_moves_without_evicting
    (N : Z) (ops : list Op) (key : string) (value : Val) :
  let c := run ops (UniversalLRU.new N) in
  UniversalLRU.has c key = true ->
  UniversalLRU.size (UniversalLRU.set c key value) = UniversalLRU.size c
  /\ UniversalLRU.keys (UniversalLRU.set c key value)
     = (remove_key key (UniversalLRU.keys c) ++ [key])%list
  /\ forall k, In k (UniversalLRU.keys c) ->
               In k (UniversalLRU.keys (UniversalLRU.set c key value)).
Proof.
  intros c Hh.
  assert (Hnd : NoDup (UniversalLRU.keys c)).
  { apply (run_recency_ordered ops (UniversalLRU.new N) []).
    split; constructor. }
  clearbody c.
  pose proof (set_keys_present c key value Hh) as Hk.
  split; [|split; [exact Hk|]].
  - rewrite !size_keys, Hk, length_app. simpl.
    apply map_has_In in Hh. fold (UniversalLRU.keys c) in Hh.
    pose proof (remove_key_length_NoDup key _ Hnd Hh). lia.
  - intros k Hin. rewrite Hk, in_app_iff, remove_key_In. simpl.
    destruct (String.eqb_spec k key); [now right; left | now left].
Qed.

Lemma reinsert_moves_without_evicting_witness :
  let c := run [OSet "a" (VNumber 1); OSet "b" (VNumber 2)]
               (UniversalLRU.new 2) in
  UniversalLRU.size (UniversalLRU.set c "a" (VNumber 9)) = UniversalLRU.size c
  /\ UniversalLRU.keys (UniversalLRU.set c "a" (VNumber 9))
     = (remove_key "a" (UniversalLRU.keys c) ++ ["a"])%list
  /\ forall k, In k (UniversalLRU.keys c) ->
               In k (UniversalLRU.keys (UniversalLRU.set c "a" (VNumber 9))).
Proof.
  apply (reinsert_moves_without_evicting 2
           [OSet "a" (VNumber 1); OSet "b" (VNumber 2)] "a" (VNumber 9)).
  reflexivity.
Defined.

(** ** The key builder: what it tells apart *)



(** ** [super_cache]: collisions, failures, clearing *)

(** X7.  The cache answers by key, not by arguments: after a first call
    that returned a value other than [undefined], a call whose arguments
    have the same key returns that value without invoking the base
    function, whatever the arguments are. *)
Theorem cache_conflates_equal_keys
    (f : Fn) (propertyKey : string) (type : option string)
    (maxsize : option Z) (args1 args2 : list Val) (w w1 w2 : World)
    (v : Val) (s1 : fstate f) :
  fcall f args1 (finit f) w = (Return v, s1, w1) ->
  v <> VUndefined ->
  fastKey args2 = fastKey args1 ->
  let F := super_cache (counted f) propertyKey type maxsize in
  exists st1 st2,
    fcall F args1 (finit F) w = (Return v, st1, w1)
    /\ fcall F args2 st1 w2 = (Return v, st2, w2)
    /\ invocations f (snd st2) = 1.
Proof.
  intros Hf Hv Hkey F.
  set (N := cache_capacity
              match type with Some t => t | None => "balanced" end
              match maxsize with Some n => n | None => 128 end).
  exists ({| UniversalLRU.maxSize := N;
             UniversalLRU.cache := [(fastKey args1, v)];
             UniversalLRU.hits := 0; UniversalLRU.misses := 1 |}, (1, s1)).
  exists ({| UniversalLRU.maxSize := N;
             UniversalLRU.cache := [(fastKey args1, v)];
             UniversalLRU.hits := 1; UniversalLRU.misses := 1 |}, (1, s1)).
  assert (Hu : is_undefined v = false) by (destruct v; simpl; congruence).
  repeat split.
  - subst F. cbn -[UniversalLRU.set]. rewrite Hf. cbn -[UniversalLRU.set].
    fold N. now rewrite set_on_empty.
  - subst F. cbn -[UniversalLRU.get]. rewrite Hkey, get_single.
    now rewrite Hu.
Qed.

Lemma cache_conflates_equal_keys_witness :
  let F := super_cache (counted identity) "wrapped" None None in
  exists st1 st2,
    fcall F [VNumber 1] (finit F) (mkWorld 0)
    = (Return (VNumber 1), st1, mkWorld 0)
    /\ fcall F [VString "1"] st1 (mkWorld 0)
       = (Return (VNumber 1), st2, mkWorld 0)
    /\ invocations identity (snd st2) = 1.
Proof.
  apply (cache_conflates_equal_keys identity "wrapped" None None
           [VNumber 1] [VString "1"] (mkWorld 0) (mkWorld 0) (mkWorld 0)
           (VNumber 1) tt).
  - reflexivity.
  - discriminate.
  - reflexivity.
Defined.

(** X8.  A call that fails is not cached.  When the first call of the base
    function throws, the cached function throws the same value and stores
    nothing; the next call, with any arguments, invokes the base function
    again. *)
Theorem cache_does_not_store_failures
    (f : Fn) (propertyKey : string) (type : option string)
    (maxsize : option Z) (args args2 : list Val) (w w1 w2 : World)
    (error : Val) (s1 : fstate f) :
  fcall f args (finit f) w = (Throw error, s1, w1) ->
  let F := super_cache (counted f) propertyKey type maxsize in
  exists st1 st2,
    fcall F args (finit F) w = (Throw error, st1, w1)
    /\ UniversalLRU.size (fst st1) = 0
    /\ fcall F args2 st1 w2
       = (fst (fst (fcall f args2 s1 w2)), st2, snd (fcall f args2 s1 w2))
    /\ invocations f (snd st2) = 2.
Proof.
  intros Hf F.
  set (N := cache_capacity
              match type with Some t => t | None => "balanced" end
              match maxsize with Some n => n | None => 128 end).
  exists ({| UniversalLRU.maxSize := N; UniversalLRU.cache := [];
             UniversalLRU.hits := 0; UniversalLRU.misses := 1 |}, (1, s1)).
  destruct (fcall f args2 s1 w2) as [[[r2|e2] s2] w2'] eqn:H2;
    (eexists; split; [|split; [reflexivity|split]];
     [ subst F; cbn; rewrite Hf; reflexivity
     | subst F; cbn -[UniversalLRU.set]; rewrite H2; reflexivity
     | reflexivity ]).
Qed.

Lemma cache_does_not_store_failures_witness :
  let f := flaky 2 (Error "unavailable") (VString "ok") in
  let F := super_cache (counted f) "wrapped" None None in
  exists st1 st2,
    fcall F [] (finit F) (mkWorld 0) = (Throw (Error "unavailable"), st1, mkWorld 0)
    /\ UniversalLRU.size (fst st1) = 0
    /\ fcall F [] st1 (mkWorld 5)
       = (fst (fst (fcall f [] 1 (mkWorld 5))), st2,
          snd (fcall f [] 1 (mkWorld 5)))
    /\ invocations f (snd st2) = 2.
Proof.
  intros f.
  apply (cache_does_not_store_failures f "wrapped" None None [] []
           (mkWorld 0) (mkWorld 0) (mkWorld 5) (Error "unavailable") 1).
  reflexivity.
Defined.

(** X9.  [cache_clear()] forgets everything: the call that follows it, in
    any state and with any arguments, invokes the base function and passes
    its outcome on, and the statistics start again from that one miss. *)
Theorem cache_clear_forgets
    (f : Fn) (propertyKey : string) (type : option string)
    (maxsize : option Z) (args : list Val) (w : World)
    (st : fstate (super_cache (counted f) propertyKey type maxsize)) :
  let F := super_cache (counted f) propertyKey type maxsize in
  let base := fcall f args (snd (snd st)) w in
  exists st',
    fcall F args (cache_clear (counted f) propertyKey type maxsize st) w
    = (fst (fst base), st', snd base)
    /\ invocations f (snd st') = invocations f (snd st) + 1
    /\ UniversalLRU.info_hits
         (cache_info (counted f) propertyKey type maxsize st') = 0
    /\ UniversalLRU.info_misses
         (cache_info (counted f) propertyKey type maxsize st') = 1.
Proof.
  intros F base. subst F base.
  destruct st as [c [n s]].
  destruct (fcall f args s w) as [[[r|e] s'] w'] eqn:Hb;
    (eexists; split;
     [ cbn -[UniversalLRU.set]; rewrite Hb; reflexivity
     | repeat split ]).
Qed.

(** ** [time_limit] *)

(** X10.  The limit is checked after the fact.  The base function is always
    invoked once and runs to its end, and its effects stay; a returned
    value is replaced by a [TimeoutError] carrying the limit exactly when
    the clock has advanced by more than the limit, and a thrown value is
    passed on however long the call took. *)
Theorem time_limit_is_post_hoc
    (f : Fn) (pk : string) (ms : Z) (args : list Val) (n : Z)
    (s : fstate f) (w : World) :
  let F := time_limit (counted f) pk (Some ms) in
  let base := fcall f args s w in
  let elapsed := clock (snd base) - clock w in
  exists out,
    fcall F args (n, s) w = (out, (n + 1, snd (fst base)), snd base)
    /\ (forall result, fst (fst base) = Return result -> ms < elapsed ->
        out = Throw (VError (TimeoutError
                               ("Method " ++ pk ++ " exceeded time limit of "
                                ++ string_of_Z ms ++ "ms") ms)))
    /\ (forall result, fst (fst base) = Return result -> elapsed <= ms ->
        out = Return result)
    /\ (forall error, fst (fst base) = Throw error -> out = Throw error).
Proof.
  intros F base elapsed. subst F base elapsed.
  destruct (fcall f args s w) as [[[r|e] s'] w'] eqn:Hb; cbn.
  - rewrite Hb. cbn.
    destruct (clock w' - clock w >? ms) eqn:E.
    + eexists. split; [reflexivity|]. split; [|split].
      * intros result Hr Hlt. reflexivity.
      * intros result Hr Hle. apply Z.gtb_lt in E. lia.
      * intros error He. discriminate.
    + eexists. split; [reflexivity|]. split; [|split].
      * intros result Hr Hlt. rewrite Z.gtb_ltb in E.
        apply Z.ltb_ge in E. lia.
      * intros result Hr _. now inversion Hr.
      * intros error He. discriminate.
  - rewrite Hb. cbn. eexists. split; [reflexivity|]. split; [|split].
    + intros result Hr. discriminate.
    + intros result Hr. discriminate.
    + intros error He. now inversion He.
Qed.

(** ** [async_retry]: success, giving up, waiting *)

Lemma retry_loop_succeeds (f : Fn) (pk : string) (config : AsyncRetryConfig)
    (args : list Val) (ok : Outcome) (v : Val) :
  await ok = Resolved v ->
  forall (fails : list Outcome) (remaining : nat) (i : Z) (lastError : Val)
         (s : fstate f) (n : Z) (w : World),
    behaves f args s (fails ++ [ok])%list ->
    all_retried config fails ->
    (List.length fails < remaining)%nat ->
    exists s' w',
      retry_loop (counted f) pk config remaining i lastError args (n, s) w
      = (VPromiseFulfilled v, s', w')
      /\ fst s' = n + Z.of_nat (List.length fails) + 1.
Proof.
  intros Hok.
  induction fails as [|o fails IH];
    intros remaining i lastError s n w Hb Hall Hlen;
    (destruct remaining as [|remaining]; [simpl in Hlen; lia|]);
    simpl in Hb; destruct (Hb w) as (s1 & w1 & Hcall & Hrest).
  - exists (n + 1, s1), w1.
    cbn [retry_loop counted fcall fst snd]. rewrite Hcall, Hok.
    split; [reflexivity|simpl; lia].
  - inversion Hall as [|? ? (error & Haw & Hretry) Hall']; subst.
    set (w'' := if i <? attempts config - 1 then
                  sleep (if exponentialBackoff config
                         then delay config * 2 ^ i
                         else delay config) w1
                else w1).
    destruct (IH remaining (i + 1) error s1 (n + 1) w'' Hrest Hall')
      as (s2 & w2 & Hloop & Hcount); [simpl in Hlen; lia|].
    exists s2, w2. split.
    + cbn [retry_loop counted fcall fst snd]. rewrite Hcall, Haw.
      assert (Hgo : (0 <? Z.of_nat (List.length (retryOn config)))
                    && negb (existsb (instanceof error) (retryOn config))
                    = false).
      { destruct Hretry as [-> | ->]; [reflexivity|apply andb_false_r]. }
      rewrite Hgo. fold w''. exact Hloop.
    + rewrite Hcount. simpl List.length. lia.
Qed.

(** X11.  A base function that fails on its first [k - 1] invocations, each
    time with an error that is retried, and succeeds with [v] on invocation
    [k], where [k] is at most [attempts]: the promise is fulfilled with [v]
    and the base function has been invoked [k] times. *)
Theorem retry_until_success
    (f : Fn) (pk : string) (options : AsyncRetryOptions) (args : list Val)
    (fails : list Outcome) (ok : Outcome) (v : Val)
    (s : fstate f) (n : Z) (w : World) :
  behaves f args s (fails ++ [ok])%list ->
  all_retried (async_retry_config options) fails ->
  await ok = Resolved v ->
  Z.of_nat (List.length fails) < attempts (async_retry_config options) ->
  exists s' w',
    fcall (async_retry (counted f) pk options) args (n, s) w
    = (Return (VPromiseFulfilled v), s', w')
    /\ invocations f s' = n + Z.of_nat (List.length fails) + 1.
Proof.
  intros Hb Hall Hok Hlen.
  destruct (retry_loop_succeeds f pk (async_retry_config options) args ok v Hok
              fails (Z.to_nat (attempts (async_retry_config options)))
              0 VUndefined s n w Hb Hall ltac:(lia))
    as (s' & w' & Hloop & Hcount).
  exists s', w'. split; [|exact Hcount].
  cbn [async_retry fcall]. rewrite Hloop. reflexivity.
Qed.

Lemma retry_until_success_witness :
  let f := flaky 3 (Error "Network error")
                 (VString "Data fetched successfully") in
  exists s' w',
    fcall (async_retry (counted f) "fetchData"
             {| ar_attempts := Some 3; ar_delay := Some 10;
                ar_exponentialBackoff := None; ar_retryOn := None |})
          [] (0, 0) (mkWorld 0)
    = (Return (VPromiseFulfilled (VString "Data fetched successfully")),
       s', w')
    /\ invocations f s' = 0 + Z.of_nat 2 + 1.
Proof.
  intros f.
  apply (retry_until_success f "fetchData"
           {| ar_attempts := Some 3; ar_delay := Some 10;
              ar_exponentialBackoff := None; ar_retryOn := None |} []
           [Throw (Error "Network error"); Throw (Error "Network error")]
           (Return (VString "Data fetched successfully"))
           (VString "Data fetched successfully") 0 0 (mkWorld 0)).
  - apply flaky_behaves_3.
  - repeat constructor; exists (Error "Network error"); split; auto.
  - reflexivity.
  - simpl. lia.
Defined.

(** X12.  When every attempt fails with an error that is retried, the base
    function is invoked [attempts] times, not at all when [attempts] is
    zero or negative, and the promise is rejected with a [RetryError] whose
    only trace of the failures is the configured attempt count. *)
Theorem retry_gives_up_after_attempts
    (f : Fn) (pk : string) (options : AsyncRetryOptions) (args : list Val)
    (outs : list Outcome) (s : fstate f) (n : Z) (w : World) :
  let config := async_retry_config options in
  List.length outs = Z.to_nat (attempts config) ->
  behaves f args s outs ->
  all_retried config outs ->
  exists s' w',
    fcall (async_retry (counted f) pk options) args (n, s) w
    = (Return
         (VPromiseRejected
            (VError (MkError ["RetryError"; "DecoratorError"; "Error"]
                       "RetryError"
                       ("Method " ++ pk ++ " failed after "
                        ++ string_of_Z (attempts config) ++ " attempts")
                       (Some "asyncRetry") None None None None
                       (Some (attempts config))))),
       s', w')
    /\ invocations f s' = n + Z.max 0 (attempts config).
Proof.
  intros config Hlen Hb Hall.
  destruct (retry_loop_exhausted f pk config args outs 0 VUndefined s n w
                                 Hb Hall) as (s' & w' & Hloop & Hcount).
  exists s', w'. split.
  - cbn [async_retry fcall]. fold config. rewrite <- Hlen, Hloop.
    reflexivity.
  - unfold invocations. rewrite Hcount, Hlen. lia.
Qed.

Lemma retry_gives_up_after_attempts_witness :
  let f := constant (VPromiseRejected (Error "Network error")) in
  exists s' w',
    fcall (async_retry (counted f) "fetchData"
             {| ar_attempts := Some 2; ar_delay := Some 10;
                ar_exponentialBackoff := None; ar_retryOn := None |})
          [] (0, tt) (mkWorld 0)
    = (Return
         (VPromiseRejected
            (VError (MkError ["RetryError"; "DecoratorError"; "Error"]
                       "RetryError"
                       ("Method " ++ "fetchData" ++ " failed after "
                        ++ string_of_Z 2 ++ " attempts")
                       (Some "asyncRetry") None None None None (Some 2)))),
       s', w')
    /\ invocations f s' = 0 + Z.max 0 2.
Proof.
  intros f.
  apply (retry_gives_up_after_attempts f "fetchData"
           {| ar_attempts := Some 2; ar_delay := Some 10;
              ar_exponentialBackoff := None; ar_retryOn := None |} []
           [Return (VPromiseRejected (Error "Network error"));
            Return (VPromiseRejected (Error "Network error"))]
           tt 0 (mkWorld 0)).
  - reflexivity.
  - simpl. intros w. exists tt, w. split; [reflexivity|].
    intros w1. exists tt, w1. split; [reflexivity|exact I].
  - repeat constructor; exists (Error "Network error"); split; auto.
Defined.

Lemma retry_loop_clock (f : Fn) (pk : string) (config : AsyncRetryConfig)
    (args : list Val) :
  0 <= delay config ->
  forall (outs : list Outcome) (i : Z) (lastError : Val)
         (s : fstate f) (n : Z) (w : World),
    0 <= i -> outs <> [] ->
    i + Z.of_nat (List.length outs) = attempts config ->
    behaves_in_no_time f args s outs ->
    all_retried config outs ->
    clock (snd (retry_loop (counted f) pk config (List.length outs) i
                           lastError args (n, s) w))
    = clock w
      + (if exponentialBackoff config
         then delay config * (2 ^ (attempts config - 1) - 2 ^ i)
         else delay config * (attempts config - 1 - i)).
Proof.
  intros Hd.
  induction outs as [|o outs IH]; intros i lastError s n w Hi Hne Hlen Hb Hall;
    [congruence|].
  simpl in Hb. destruct (Hb w) as (s1 & Hcall & Hrest).
  inversion Hall as [|? ? (error & Haw & Hretry) Hall']; subst.
  assert (Hgo : (0 <? Z.of_nat (List.length (retryOn config)))
                && negb (existsb (instanceof error) (retryOn config))
                = false).
  { destruct Hretry as [-> | ->]; [reflexivity|apply andb_false_r]. }
  cbn [retry_loop counted fcall fst snd List.length].
  rewrite Hcall, Haw, Hgo.
  destruct outs as [|o' outs].
  - simpl in Hlen.
    assert (Hlast : (i <? attempts config - 1) = false)
      by (apply Z.ltb_ge; lia).
    rewrite Hlast. cbn [retry_loop List.length snd].
    replace (attempts config - 1) with i by lia.
    destruct (exponentialBackoff config); lia.
  - assert (Hmore : (i <? attempts config - 1) = true).
    { apply Z.ltb_lt. simpl List.length in Hlen. lia. }
    rewrite Hmore.
    rewrite (IH (i + 1) error s1 (n + 1)); try assumption;
      [|lia|discriminate|simpl List.length in *; lia].
    unfold sleep. cbn [clock].
    destruct (exponentialBackoff config).
    + assert (Hp : 0 < 2 ^ i) by (apply Z.pow_pos_nonneg; lia).
      rewrite Z.pow_add_r by lia. change (2 ^ 1) with 2. nia.
    + lia.
Qed.

(** X13.  Waiting between attempts.  When all [attempts] (at least one)
    fail with errors that are retried and the base function itself takes no
    time, the call ends [delay * (attempts - 1)] milliseconds after it
    began, or [delay * (2 ^ (attempts - 1) - 1)] with exponential backoff:
    the waits are [delay], [2 delay], [4 delay], ..., and nothing is waited
    after the last attempt. *)
Theorem retry_backoff_total
    (f : Fn) (pk : string) (options : AsyncRetryOptions) (args : list Val)
    (outs : list Outcome) (s : fstate f) (n : Z) (w : World) :
  let config := async_retry_config options in
  0 <= delay config ->
  1 <= attempts config ->
  List.length outs = Z.to_nat (attempts config) ->
  behaves_in_no_time f args s outs ->
  all_retried config outs ->
  clock (snd (fcall (async_retry (counted f) pk options) args (n, s) w))
  = clock w + total_backoff config.
Proof.
  intros config Hd Ha Hlen Hb Hall.
  pose proof (retry_loop_clock f pk config args Hd outs 0 VUndefined s n w)
    as H.
  assert (Hne : outs <> []).
  { intros ->. cbn [List.length] in Hlen. lia. }
  specialize (H ltac:(lia) Hne ltac:(lia) Hb Hall).
  cbn [async_retry fcall]. fold config. rewrite <- Hlen.
  destruct (retry_loop (counted f) pk config (List.length outs) 0 VUndefined
                       args (n, s) w) as [[p s'] w'].
  cbn [snd] in *. rewrite H. unfold total_backoff.
  destruct (exponentialBackoff config); [|lia].
  change (2 ^ 0) with 1. reflexivity.
Qed.

Lemma retry_backoff_total_witness :
  let f := constant (VPromiseRejected (Error "Network error")) in
  let options := {| ar_attempts := Some 4; ar_delay := Some 100;
                    ar_exponentialBackoff := Some true;
                    ar_retryOn := None |} in
  clock (snd (fcall (async_retry (counted f) "fetchData" options) []
                    (0, tt) (mkWorld 5)))
  = clock (mkWorld 5) + total_backoff (async_retry_config options).
Proof.
  intros f options.
  apply (retry_backoff_total f "fetchData" options []
           (List.repeat (Return (VPromiseRejected (Error "Network error"))) 4)
           tt 0 (mkWorld 5)).
  - simpl. lia.
  - simpl. lia.
  - reflexivity.
  - simpl. repeat (intros ?w; exists tt; split; [reflexivity|]). exact I.
  - repeat constructor; exists (Error "Network error"); split; auto.
Defined.

Example retry_backoff_run :
  clock (snd (fcall (async_retry
                       (counted (constant
                                   (VPromiseRejected (Error "Network error"))))
                       "fetchData"
                       {| ar_attempts := Some 4; ar_delay := Some 100;
                          ar_exponentialBackoff := Some true;
                          ar_retryOn := None |}) []
                    (0, tt) (mkWorld 5)))
  = 5 + 100 + 200 + 400.
Proof. reflexivity. Qed.

(** ** [validate]: what passes and what is thrown *)

(** X14.  A call that satisfies every rule is transparent: when no
    parameter rule throws and the return rule, if there is one, throws
    nothing on the value returned, the validated function invokes the base
    function once and passes on its outcome, its state and the world as
    they are.  A value thrown by the base function is passed on too; the
    return rule is not consulted on it. *)
Theorem validate_passes_result_through
    (f : Fn) (pk : string) (options : ValidationOptions) (args : list Val)
    (n : Z) (s : fstate f) (w : World) :
  let base := fcall f args s w in
  check_params match v_params options with Some l => l | None => [] end
               0 args = None ->
  (forall result rule,
      fst (fst base) = Return result -> v_return options = Some rule ->
      check_return rule result = None) ->
  fcall (validate (counted f) pk options) args (n, s) w
  = (fst (fst base), (n + 1, snd (fst base)), snd base).
Proof.
  intros base Hp Hr. subst base. cbn. rewrite Hp.
  destruct (fcall f args s w) as [[[r|e] s'] w'] eqn:Hb; cbn in *;
    [|reflexivity].
  destruct (v_return options) as [rule|]; [|reflexivity].
  now rewrite (Hr r rule eq_refl eq_refl).
Qed.

Lemma validate_passes_result_through_witness :
  fcall (validate (counted identity) "createUser"
           {| v_params := Some [Some name_rule]; v_return := None;
              v_throwOnError := None; v_logErrors := None |})
        [VString "Alice"] (0, tt) (mkWorld 0)
  = (fst (fst (fcall identity [VString "Alice"] tt (mkWorld 0))),
     (0 + 1, snd (fst (fcall identity [VString "Alice"] tt (mkWorld 0)))),
     snd (fcall identity [VString "Alice"] tt (mkWorld 0))).
Proof.
  apply (validate_passes_result_through identity "createUser"
           {| v_params := Some [Some name_rule]; v_return := None;
              v_throwOnError := None; v_logErrors := None |}
           [VString "Alice"] 0 tt (mkWorld 0)).
  - reflexivity.
  - intros result rule _ H. discriminate H.
Defined.

(** X15.  A rule of type ['array'] accepts no value that is present:
    [typeof] never answers ['array'], so every argument other than [null]
    and [undefined], arrays included, is rejected with a type error for its
    position. *)
Theorem array_rule_rejects_every_value
    (rule : ValidationRule) (index : Z) (value : Val) :
  r_type rule = Some "array" ->
  is_nullish value = false ->
  check_param rule index value
  = param_error index ("Parameter " ++ string_of_Z index
                       ++ " must be of type array").
Proof.
  intros Ht Hv. unfold check_param, and_then, check_required, check_type,
    type_mismatch, type_name.
  rewrite Ht, Hv, andb_false_r. simpl.
  destruct value; simpl in *; try discriminate; reflexivity.
Qed.

Lemma array_rule_rejects_every_value_witness :
  check_param {| r_type := Some "array"; r_required := true;
                 r_min := None; r_max := None; r_pattern := None;
                 r_validate := None; r_message := None |} 0
              (VArray [VNumber 1; VNumber 2])
  = param_error 0 ("Parameter " ++ string_of_Z 0 ++ " must be of type array").
Proof.
  apply (array_rule_rejects_every_value
           {| r_type := Some "array"; r_required := true;
              r_min := None; r_max := None; r_pattern := None;
              r_validate := None; r_message := None |} 0
           (VArray [VNumber 1; VNumber 2])); reflexivity.
Defined.

(** X16.  An optional number with a positive lower bound: [null] is
    compared as 0 and rejected for being below the bound, while [undefined]
    passes the type and bound checks and goes on to the custom predicate,
    if any. *)
Theorem optional_number_null_is_zero
    (rule : ValidationRule) (index : Z) (min : Z) :
  r_required rule = false ->
  r_type rule = Some "number" ->
  r_min rule = Some min ->
  0 < min ->
  check_param rule index VNull
  = param_error index ("Parameter " ++ string_of_Z index ++ " must be >= "
                       ++ string_of_Z min)
  /\ check_param rule index VUndefined = check_custom rule index VUndefined.
Proof.
  intros Hreq Ht Hmin Hpos.
  unfold check_param, and_then, check_required, check_type, type_mismatch,
    check_min, check_max, check_pattern, type_is.
  rewrite Hreq, Ht, Hmin. simpl.
  assert (H0 : (0 <? min) = true) by now apply Z.ltb_lt.
  rewrite H0. split; [reflexivity|].
  destruct (r_max rule); destruct (r_pattern rule); reflexivity.
Qed.

Lemma optional_number_null_is_zero_witness :
  let rule := {| r_type := Some "number"; r_required := false;
                 r_min := Some 18; r_max := None; r_pattern := None;
                 r_validate := None; r_message := None |} in
  check_param rule 1 VNull
  = param_error 1 ("Parameter " ++ string_of_Z 1 ++ " must be >= "
                   ++ string_of_Z 18)
  /\ check_param rule 1 VUndefined = check_custom rule 1 VUndefined.
Proof.
  intros rule.
  apply (optional_number_null_is_zero rule 1 18); [reflexivity..|lia].
Defined.

(** X17.  An optional string with a length bound, when the argument is
    left out: the bound check reads [value.length] of [undefined], so what
    is thrown is a [TypeError], not a validation failure. *)
Theorem optional_string_bound_throws_TypeError
    (rule : ValidationRule) (index : Z) :
  r_required rule = false ->
  r_type rule = Some "string" ->
  r_min rule <> None \/ r_max rule <> None ->
  check_param rule index VUndefined = Some cannot_read_length
  /\ instanceof cannot_read_length "ValidationError" = false
  /\ instanceof cannot_read_length "TypeError" = true.
Proof.
  intros Hreq Ht Hb.
  split; [|split; reflexivity].
  unfold check_param, and_then, check_required, check_type, type_mismatch,
    check_min, check_max, type_is.
  rewrite Hreq, Ht. simpl.
  destruct (r_min rule) as [mn|]; [reflexivity|].
  destruct (r_max rule) as [mx|]; [reflexivity|].
  destruct Hb; congruence.
Qed.

Lemma optional_string_bound_throws_TypeError_witness :
  let rule := {| r_type := Some "string"; r_required := false;
                 r_min := None; r_max := Some 10; r_pattern := None;
                 r_validate := None; r_message := None |} in
  check_param rule 0 VUndefined = Some cannot_read_length
  /\ instanceof cannot_read_length "ValidationError" = false
  /\ instanceof cannot_read_length "TypeError" = true.
Proof.
  intros rule.
  apply (optional_string_bound_throws_TypeError rule 0);
    [reflexivity | reflexivity | right; discriminate].
Defined.

(** X18.  The return rule is applied after the call: when it rejects the
    value returned, the failure names the field ['return'], and the base
    function has already run, with its effects in place. *)
Theorem return_check_follows_the_call
    (f : Fn) (pk : string) (options : ValidationOptions)
    (rule : ValidationRule) (args : list Val) (result thrown : Val)
    (n : Z) (s s' : fstate f) (w w' : World) :
  check_params match v_params options with Some l => l | None => [] end
               0 args = None ->
  fcall f args s w = (Return result, s', w') ->
  v_return options = Some rule ->
  check_return rule result = Some thrown ->
  fcall (validate (counted f) pk options) args (n, s) w
  = (Throw thrown, (n + 1, s'), w')
  /\ exists message, thrown = VError (ValidationError message "return").
Proof.
  intros Hp Hb Hr Hc. split.
  - cbn. rewrite Hp, Hb. cbn. now rewrite Hr, Hc.
  - revert Hc. unfold check_return, and_then, return_error.
    destruct (r_required rule && is_nullish result);
      [intros H; inversion H; eauto|].
    destruct (type_mismatch rule result); [intros H; inversion H; eauto|].
    destruct (r_validate rule) as [p|]; [|discriminate].
    destruct (p result); [discriminate|intros H; inversion H; eauto].
Qed.

Lemma return_check_follows_the_call_witness :
  let options := {| v_params := None;
                    v_return := Some {| r_type := Some "object";
                                        r_required := true;
                                        r_min := None; r_max := None;
                                        r_pattern := None;
                                        r_validate := None;
                                        r_message := None |};
                    v_throwOnError := None; v_logErrors := None |} in
  fcall (validate (counted (constant VNull)) "createUser" options) []
        (0, tt) (mkWorld 0)
  = (Throw (VError (ValidationError "Return value is required" "return")),
     (0 + 1, tt), mkWorld 0)
  /\ exists message,
       VError (ValidationError "Return value is required" "return")
       = VError (ValidationError message "return").
Proof.
  intros options.
  apply (return_check_follows_the_call (constant VNull) "createUser" options
           {| r_type := Some "object"; r_required := true;
              r_min := None; r_max := None; r_pattern := None;
              r_validate := None; r_message := None |}
           [] VNull
           (VError (ValidationError "Return value is required" "return"))
           0 tt tt (mkWorld 0) (mkWorld 0)); reflexivity.
Defined.

(** ** [metrics]: the accumulator *)

Lemma fold_right_add_snoc (l : list Z) (x : Z) :
  fold_right Z.add 0 (l ++ [x]) = fold_right Z.add 0 l + x.
Proof. induction l as [|y l IH]; simpl; lia. Qed.

Lemma updateMetrics_consistent (track : list string) (n now duration : Z)
    (error : Val) (d : MetricsData) :
  0 <= n ->
  metrics_consistent track n d ->
  metrics_consistent track (n + 1) (updateMetrics track now duration error d).
Proof.
  intros Hn (Hc & Hl & Ht & He). unfold metrics_consistent, updateMetrics.
  simpl.
  destruct (includes "calls" track); destruct (includes "duration" track);
    destruct (truthy error && includes "errors" track);
    rewrite ?length_app, ?fold_right_add_snoc; simpl; repeat split; lia.
Qed.

Lemma metrics_call_seq_consistent (f : Fn) (pk : string)
    (options : MetricsOptions) (cs : list (list Val * World)) :
  forall (n : Z) (st : fstate (metrics f pk options)),
    0 <= n ->
    metrics_consistent (metrics_track options) n (fst st) ->
    metrics_consistent (metrics_track options)
                       (n + Z.of_nat (List.length cs))
                       (fst (call_seq (metrics f pk options) cs st)).
Proof.
  induction cs as [|[args w] cs IH]; intros n st Hn Hst.
  - simpl. now rewrite Z.add_0_r.
  - cbn [call_seq List.length].
    replace (n + Z.of_nat (S (List.length cs)))
      with (n + 1 + Z.of_nat (List.length cs)) by lia.
    apply IH; [lia|].
    destruct st as [d s]. cbn.
    destruct (fcall f args s w) as [[[r|e] s'] w']; cbn;
      now apply updateMetrics_consistent.
Qed.

(** X19.  The accumulator after any number of calls, made at any times and
    with any outcomes: [calls] is the number of calls when calls are
    tracked, there is one recorded duration per call when durations are
    tracked, [totalDuration] is the sum of the recorded durations, and
    [errors] never exceeds the number of calls. *)
Theorem metrics_accounting
    (f : Fn) (pk : string) (options : MetricsOptions)
    (cs : list (list Val * World)) :
  let F := metrics f pk options in
  metrics_consistent (metrics_track options) (Z.of_nat (List.length cs))
    (getMetrics f pk options (call_seq F cs (finit F))).
Proof.
  intros F.
  apply (metrics_call_seq_consistent f pk options cs 0 (finit F)); [lia|].
  unfold metrics_consistent. cbn.
  destruct (includes "calls" (metrics_track options));
    destruct (includes "duration" (metrics_track options));
    repeat split; lia.
Qed.

(** The run of the tests: three calls, the third of which throws. *)
Example metrics_run :
  let f := flaky 3 (Error "Processing failed") (VString "Processed") in
  let F := metrics f "processData" sample_metrics in
  let d := getMetrics f "processData" sample_metrics
             (call_seq F [([], mkWorld 0); ([], mkWorld 5); ([], mkWorld 9)]
                       (finit F)) in
  calls d = 3 /\ errors d = 2 /\ durations d = [0; 0; 0]
  /\ lastCalled d = Some 9.
Proof. repeat split. Qed.

(** ** [rate_limit]: the bound, the [cache] strategy, the partitions *)

Lemma window_ms_pos (window : string) : 0 < window_ms window.
Proof.
  unfold window_ms.
  repeat match goal with |- context [if ?b then _ else _] => destruct b end;
    lia.
Qed.

Section RateLimitWindow.

Variable f : Fn.
Variable pk : string.
Variables requests t0 : Z.
Variables window strategy : string.
Variable message : option string.
Hypothesis Hstrategy : strategy = "reject" \/ strategy = "cache".

Let F := rate_limit (counted f) pk
           (limit_options requests window strategy message).

Lemma rate_limit_step_in_window (args : list Val) (w : World)
    (st : fstate F) :
  within_one_window requests t0 (fst st) (fst (snd st)) ->
  t0 <= clock w <= t0 + window_ms window ->
  within_one_window requests t0 (fst (snd (fst (fcall F args st w))))
                    (fst (snd (snd (fst (fcall F args st w))))).
Proof.
  intros HI Hw. destruct st as [cm [n s]]. cbn [fst snd] in HI.
  pose proof (window_ms_pos window) as HW.
  destruct HI as [[Hcm Hn] | (d & Hcm & Hs & Hc & Hle)]; subst cm.
  - subst n. unfold F, limit_options. cbn.
    assert (H0 : (clock w - clock w >? window_ms window) = false).
    { rewrite Z.sub_diag, Z.gtb_ltb. apply Z.ltb_ge. lia. }
    rewrite H0. cbn.
    destruct (0 >=? requests) eqn:E.
    + destruct Hstrategy as [-> | ->]; cbn; left; auto.
    + assert (Hr : 1 <= requests).
      { rewrite Z.geb_leb in E. apply Z.leb_gt in E. lia. }
      destruct (fcall f args s w) as [[[r|e] s'] w']; cbn;
        right; eexists; (split; [reflexivity|]); cbn; repeat split; lia.
  - unfold F, limit_options. cbn.
    assert (H0 : (clock w - start d >? window_ms window) = false).
    { rewrite Z.gtb_ltb. apply Z.ltb_ge. lia. }
    rewrite H0. cbn.
    destruct (count d >=? requests) eqn:E.
    + destruct Hstrategy as [-> | ->]; cbn; right; exists d; auto.
    + assert (Hr : count d < requests).
      { rewrite Z.geb_leb in E. apply Z.leb_gt in E. lia. }
      destruct (fcall f args s w) as [[[r|e] s'] w']; cbn;
        right; eexists; (split; [reflexivity|]); cbn; repeat split; lia.
Qed.

Lemma rate_limit_seq_in_window (cs : list (list Val * World)) :
  (forall args w, In (args, w) cs ->
                  t0 <= clock w <= t0 + window_ms window) ->
  forall st : fstate F,
    within_one_window requests t0 (fst st) (fst (snd st)) ->
    within_one_window requests t0 (fst (call_seq F cs st))
                      (fst (snd (call_seq F cs st))).
Proof.
  induction cs as [|[args w] cs IH]; intros Hcs st Hst; [exact Hst|].
  cbn [call_seq]. apply IH.
  - intros a w' Hin. apply (Hcs a w'). now right.
  - apply rate_limit_step_in_window; [assumption|].
    apply (Hcs args w). now left.
Qed.

End RateLimitWindow.

(** X20.  Under the [reject] and the [cache] strategy, with one partition:
    however many calls are made within a span of time no longer than the
    window, the base function is invoked at most [requests] times (never,
    when [requests] is zero or negative). *)
Theorem rate_limit_bounds_invocations
    (f : Fn) (pk : string) (requests t0 : Z) (window strategy : string)
    (message : option string) (cs : list (list Val * World)) :
  strategy = "reject" \/ strategy = "cache" ->
  (forall args w, In (args, w) cs ->
                  t0 <= clock w <= t0 + window_ms window) ->
  let F := rate_limit (counted f) pk
             (limit_options requests window strategy message) in
  0 <= invocations f (snd (call_seq F cs (finit F))) <= Z.max 0 requests.
Proof.
  intros Hs Hcs F.
  pose proof (rate_limit_seq_in_window f pk requests t0 window strategy
                message Hs cs Hcs (finit F)
                (or_introl (conj eq_refl eq_refl))) as H.
  fold F in H. unfold invocations.
  destruct H as [[_ Hn] | (d & _ & _ & Hc & Hle)]; lia.
Qed.

Lemma rate_limit_bounds_invocations_witness :
  let cs := [([VString "data1"], mkWorld 0); ([VString "data2"], mkWorld 10);
             ([VString "data3"], mkWorld 20); ([VString "data4"], mkWorld 999)]
  in
  let F := rate_limit (counted identity) "makeRequest"
             (limit_options 2 "1s" "reject" None) in
  0 <= invocations identity (snd (call_seq F cs (finit F))) <= Z.max 0 2.
Proof.
  intros cs.
  apply (rate_limit_bounds_invocations identity "makeRequest" 2 0 "1s"
           "reject" None cs).
  - now left.
  - intros args w [H|[H|[H|[H|[]]]]]; inversion H; subst;
      change (window_ms "1s") with 1000; simpl; lia.
Defined.

Lemma calls_get_set_other (key k : string) (d : CallData) (m : CallsMap) :
  k <> key -> calls_get k (calls_set key d m) = calls_get k m.
Proof.
  intros Hne. induction m as [|[k0 d0] m IH]; simpl.
  - destruct (String.eqb_spec key k); [congruence|reflexivity].
  - destruct (String.eqb_spec k0 key) as [->|Hk]; simpl.
    + destruct (String.eqb_spec key k); [congruence|reflexivity].
    + now rewrite IH.
Qed.

Lemma calls_set_same (key : string) (d : CallData) (m : CallsMap) :
  calls_get key m = Some d -> calls_set key d m = m.
Proof.
  induction m as [|[k0 d0] m IH]; simpl; [discriminate|].
  destruct (String.eqb_spec k0 key) as [->|Hk].
  - intros H. inversion H. reflexivity.
  - intros H. now rewrite IH.
Qed.

(** X21.  The [cache] strategy at the limit.  When the record of the
    call's partition shows [requests] calls or more in a window that has
    not run out, the call returns the [lastResult] of that record, which is
    [undefined] if no call of the partition has returned yet; the base
    function is not invoked and nothing changes. *)
Theorem rate_limit_cache_replays_last_result
    (g : Fn) (pk : string) (options : RateLimitOptions) (d : CallData)
    (args : list Val) (st : fstate (rate_limit g pk options)) (w : World) :
  rl_strategy options = Some "cache" ->
  calls_get (partition_key options args) (fst st) = Some d ->
  clock w - start d
  <= window_ms match rl_window options with Some s => s | None => "1m" end ->
  match rl_requests options with Some n => n | None => 10 end <= count d ->
  fcall (rate_limit g pk options) args st w = (Return (lastResult d), st, w).
Proof.
  intros Hs Hget Hw Hc. destruct st as [cm s].
  unfold partition_key in Hget. cbn [fst] in Hget.
  cbn. rewrite Hs, Hget.
  assert (H0 : (clock w - start d
                >? window_ms match rl_window options with
                             | Some s0 => s0
                             | None => "1m"
                             end) = false).
  { rewrite Z.gtb_ltb. apply Z.ltb_ge. lia. }
  rewrite H0.
  assert (H1 : (count d >=? match rl_requests options with
                            | Some n => n
                            | None => 10
                            end) = true) by (apply Z.geb_le; lia).
  rewrite H1. cbn. now rewrite calls_set_same.
Qed.

Lemma rate_limit_cache_replays_last_result_witness :
  let options := limit_options 1 "1m" "cache" None in
  let F := rate_limit identity "lookup" options in
  let st := snd (fst (fcall F [VString "first"] (finit F) (mkWorld 0))) in
  fcall F [VString "second"] st (mkWorld 50)
  = (Return (lastResult {| count := 1; start := 0;
                           lastResult := VString "first" |}), st, mkWorld 50).
Proof.
  intros options F st.
  apply (rate_limit_cache_replays_last_result identity "lookup" options
           {| count := 1; start := 0; lastResult := VString "first" |}
           [VString "second"] st (mkWorld 50)).
  - reflexivity.
  - reflexivity.
  - unfold options. change (window_ms _) with 60000. simpl. lia.
  - unfold options. simpl. lia.
Defined.

(** With the [cache] strategy a partition whose only call so far threw
    answers the next call with [undefined]. *)
Example rate_limit_cache_without_a_result :
  let F := rate_limit (counted (flaky 2 (Error "down") (VString "up")))
             "lookup" (limit_options 1 "1m" "cache" None) in
  let r1 := fcall F [] (finit F) (mkWorld 0) in
  let r2 := fcall F [] (snd (fst r1)) (mkWorld 50) in
  fst (fst r1) = Throw (Error "down")
  /\ fst (fst r2) = Return VUndefined
  /\ fst (snd (snd (fst r2))) = 1.
Proof. repeat split. Qed.

(** X22.  Partitions do not touch each other: a call, whatever its
    strategy and its outcome, leaves the record of every partition other
    than its own as it was. *)
Theorem rate_limit_partitions_are_independent
    (g : Fn) (pk : string) (options : RateLimitOptions) (args : list Val)
    (st : fstate (rate_limit g pk options)) (w : World) (key : string) :
  key <> partition_key options args ->
  calls_get key (fst (snd (fst (fcall (rate_limit g pk options) args st w))))
  = calls_get key (fst st).
Proof.
  intros Hne. destruct st as [cm s]. unfold partition_key in Hne. cbn.
  set (k := match rl_per options with
            | Some per => per args
            | None => "global"
            end) in *.
  repeat match goal with
         | |- context [match calls_get k cm with _ => _ end] =>
             destruct (calls_get k cm)
         | |- context [if ?b then _ else _] => destruct b
         | |- context [fcall g ?a ?s0 ?w0] =>
             destruct (fcall g a s0 w0) as [[[?r|?e] ?s'] ?w']
         end;
    cbn; rewrite ?calls_get_set_other by assumption; reflexivity.
Qed.

Lemma rate_limit_partitions_are_independent_witness :
  let options := {| rl_requests := Some 1; rl_window := Some "1s";
                    rl_strategy := Some "reject"; rl_message := None;
                    rl_per := Some (fun args => ToString (nth 0 args VUndefined))
                 |} in
  let F := rate_limit identity "makeRequest" options in
  let st := snd (fst (fcall F [VString "alice"] (finit F) (mkWorld 0))) in
  calls_get "alice"
    (fst (snd (fst (fcall F [VString "bob"] st (mkWorld 1)))))
  = calls_get "alice" (fst st).
Proof.
  intros options F st.
  apply (rate_limit_partitions_are_independent identity "makeRequest" options
           [VString "bob"] st (mkWorld 1) "alice").
  discriminate.
Defined.

(** ** [super_matrix]: validation under the rate limit *)

(** X23.  In the composed function validation is the innermost wrapper, so
    the rate limit counts calls before their arguments are checked: with
    validation and a limit of two calls per second configured, two calls
    whose arguments fail validation use up the window, and a third call
    made within it is refused with a [RateLimitError], whatever its
    arguments; the base function is never invoked. *)
Theorem invalid_calls_use_up_the_rate_limit
    (Config : Type) (peripheral : PeripheralKey -> Config -> Decorator)
    (f : Fn) (pk : string) (v : ValidationOptions)
    (rules : list (option ValidationRule)) (bad1 bad2 good : list Val)
    (thrown1 thrown2 : Val) (w1 w2 w3 : World) :
  v_params v = Some rules ->
  check_params rules 0 bad1 = Some thrown1 ->
  check_params rules 0 bad2 = Some thrown2 ->
  clock w2 - clock w1 <= 1000 ->
  clock w3 - clock w1 < 1000 ->
  let F := super_matrix peripheral (counted f) pk
             (validate_and_limit Config v two_per_second) in
  let r1 := fcall F bad1 (finit F) w1 in
  let r2 := fcall F bad2 (snd (fst r1)) w2 in
  let r3 := fcall F good (snd (fst r2)) w3 in
  fst (fst r1) = Throw thrown1
  /\ fst (fst r2) = Throw thrown2
  /\ fst (fst r3)
     = Throw (VError (RateLimitError "Rate limit exceeded"
                        (1000 - (clock w3 - clock w1))))
  /\ invocations f (snd (snd (fst r3))) = 0.
Proof.
  intros Hp H1 H2 Hw2 Hw3 F r1 r2 r3.
  assert (E0 : (clock w1 - clock w1 >? 1000) = false).
  { rewrite Z.sub_diag. reflexivity. }
  assert (E2 : (clock w2 - clock w1 >? 1000) = false).
  { rewrite Z.gtb_ltb. apply Z.ltb_ge. lia. }
  assert (E3 : (clock w3 - clock w1 >? 1000) = false).
  { rewrite Z.gtb_ltb. apply Z.ltb_ge. lia. }
  assert (R1 : r1 = (Throw thrown1,
                     ([("global", {| count := 1; start := clock w1;
                                     lastResult := VUndefined |})],
                      (0, finit f)), w1)).
  { subst r1 F. cbn. rewrite E0. cbn. rewrite Hp, H1. reflexivity. }
  assert (R2 : r2 = (Throw thrown2,
                     ([("global", {| count := 2; start := clock w1;
                                     lastResult := VUndefined |})],
                      (0, finit f)), w2)).
  { subst r2. rewrite R1. subst F. cbn. rewrite E2. cbn.
    rewrite Hp, H2. reflexivity. }
  assert (R3 : r3 = (Throw (VError (RateLimitError "Rate limit exceeded"
                                      (1000 - (clock w3 - clock w1)))),
                     ([("global", {| count := 2; start := clock w1;
                                     lastResult := VUndefined |})],
                      (0, finit f)), w3)).
  { subst r3. rewrite R2. subst F. cbn. rewrite E3. reflexivity. }
  rewrite R1, R2, R3. repeat split.
Qed.

Lemma invalid_calls_use_up_the_rate_limit_witness :
  let v := {| v_params := Some [Some name_rule]; v_return := None;
              v_throwOnError := None; v_logErrors := None |} in
  let F := super_matrix no_peripheral (counted identity) "createUser"
             (validate_and_limit unit v two_per_second) in
  let r1 := fcall F [VString "Al"] (finit F) (mkWorld 0) in
  let r2 := fcall F [] (snd (fst r1)) (mkWorld 10) in
  let r3 := fcall F [VString "Alice"] (snd (fst r2)) (mkWorld 20) in
  fst (fst r1)
  = Throw (VError (ValidationError "Parameter 0 must be >= 3" "param0"))
  /\ fst (fst r2)
     = Throw (VError (ValidationError "Parameter 0 is required" "param0"))
  /\ fst (fst r3)
     = Throw (VError (RateLimitError "Rate limit exceeded"
                        (1000 - (clock (mkWorld 20) - clock (mkWorld 0)))))
  /\ invocations identity (snd (snd (fst r3))) = 0.
Proof.
  intros v.
  apply (invalid_calls_use_up_the_rate_limit unit no_peripheral identity
           "createUser" v [Some name_rule] [VString "Al"] []
           [VString "Alice"]
           (VError (ValidationError "Parameter 0 must be >= 3" "param0"))
           (VError (ValidationError "Parameter 0 is required" "param0"))
           (mkWorld 0) (mkWorld 10) (mkWorld 20));
    try reflexivity; simpl; lia.
Defined.

(** ** The decorator factory, [wrapFunction] and [decorate] *)

(** X24.  The call the composer and [wrapFunction] make, with a function,
    a property key and a descriptor [{ value: fn }]: the factory returns a
    descriptor, with all three flags set, whose [value] is the decorator
    logic applied to [fn] under that key (under ['method'] when the key is
    empty), and [result.value || result] is that wrapped function.  No
    warning is written. *)
Theorem factory_wraps_descriptor_value
    (name : string) (logic : Decorator) (target fn : Fn)
    (propertyKey : option string) :
  let wrapped := logic fn (key_or propertyKey "method") in
  createUniversalDecorator name logic (JFunction target) propertyKey
                           (Some (value_descriptor fn))
  = (JDescriptor {| d_value := PFunction wrapped; d_writable := Some true;
                    d_configurable := Some true;
                    d_enumerable := Some true |}, [])
  /\ value_or_result
       (fst (createUniversalDecorator name logic (JFunction target)
                                      propertyKey
                                      (Some (value_descriptor fn))))
     = Some (JFunction wrapped)
  /\ forall type maxsize,
       wrapFunction_cache fn type maxsize
       = Some (JFunction
                 (super_cache fn "wrapped"
                    (Some match type with Some t => t | None => "balanced" end)
                    (Some match maxsize with Some n => n | None => 128 end))).
Proof. repeat split. Qed.

(** X25.  Shapes the factory does not recognise are handed back untouched.
    A function given with a non-empty property key and either no
    descriptor or a descriptor that holds no function is returned as it
    is, not wrapped, with one warning. *)
Theorem factory_returns_unsupported_target
    (name : string) (logic : Decorator) (target : Fn) (propertyKey : string)
    (descriptor : option Descriptor) :
  propertyKey <> "" ->
  (forall d f, descriptor = Some d -> d_value d <> PFunction f) ->
  createUniversalDecorator name logic (JFunction target) (Some propertyKey)
                           descriptor
  = (JFunction target, [unsupported_warning name]).
Proof.
  intros Hk Hd. unfold createUniversalDecorator.
  assert (Ht : key_truthy (Some propertyKey) = true).
  { simpl. destruct (String.eqb_spec propertyKey ""); [congruence|reflexivity]. }
  destruct descriptor as [[v wr cf en]|].
  - destruct v as [|v|f]; try (rewrite Ht; reflexivity).
    exfalso. exact (Hd _ f eq_refl eq_refl).
  - rewrite Ht. reflexivity.
Qed.

Lemma factory_returns_unsupported_target_witness :
  createUniversalDecorator "super_cache"
    (fun f pk => super_cache f pk None None) (JFunction identity)
    (Some "add") None
  = (JFunction identity, [unsupported_warning "super_cache"]).
Proof.
  apply (factory_returns_unsupported_target "super_cache"
           (fun f pk => super_cache f pk None None) identity "add" None).
  - discriminate.
  - intros d f H. discriminate H.
Defined.

(** X26.  [decorate] applies its decorators from left to right, each around
    the result of the one before, under the key ['wrapped'].  So with the
    cache first and the metrics second, the metrics wrapper is the outer
    one: of two calls with the same arguments, the first returning a value
    other than [undefined], both are counted by the metrics although the
    base function runs once. *)
Theorem decorate_metrics_around_cache
    (f : Fn) (type : option string) (maxsize : option Z)
    (options : MetricsOptions) (args : list Val) (w w1 w2 : World)
    (v : Val) (s1 : fstate f) :
  fcall f args (finit f) w = (Return v, s1, w1) ->
  v <> VUndefined ->
  let F := metrics (super_cache (counted f) "wrapped" type maxsize)
                   "wrapped" options in
  decorate (JFunction (counted f))
    [createUniversalDecorator "super_cache"
       (fun g pk => super_cache g pk type maxsize);
     createUniversalDecorator "metrics" (fun g pk => metrics g pk options)]
  = (JFunction F, [])
  /\ exists st1 st2,
       fcall F args (finit F) w = (Return v, st1, w1)
       /\ fcall F args st1 w2 = (Return v, st2, w2)
       /\ invocations f (snd (snd st2)) = 1
       /\ (includes "calls" (metrics_track options) = true ->
           calls (getMetrics _ "wrapped" options st2) = 2).
Proof.
  intros Hf Hv F. split; [reflexivity|].
  destruct (cached_twice (counted f) "wrapped" type maxsize args w w1 w2 v
                         (1, s1)) as (c1 & c2 & H1 & H2 & _).
  { simpl. now rewrite Hf. }
  { assumption. }
  eexists. eexists. split; [|split; [|split]].
  - subst F. cbn [metrics fcall fst snd finit]. rewrite H1. reflexivity.
  - subst F. cbn [metrics fcall fst snd finit]. rewrite H2. reflexivity.
  - reflexivity.
  - intros Ht. cbn. rewrite Ht. reflexivity.
Qed.

Lemma decorate_metrics_around_cache_witness :
  let F := metrics (super_cache (counted identity) "wrapped" None None)
                   "wrapped" sample_metrics in
  decorate (JFunction (counted identity))
    [createUniversalDecorator "super_cache"
       (fun g pk => super_cache g pk None None);
     createUniversalDecorator "metrics"
       (fun g pk => metrics g pk sample_metrics)]
  = (JFunction F, [])
  /\ exists st1 st2,
       fcall F [VNumber 5] (finit F) (mkWorld 0)
       = (Return (VNumber 5), st1, mkWorld 0)
       /\ fcall F [VNumber 5] st1 (mkWorld 3)
          = (Return (VNumber 5), st2, mkWorld 3)
       /\ invocations identity (snd (snd st2)) = 1
       /\ (includes "calls" (metrics_track sample_metrics) = true ->
           calls (getMetrics _ "wrapped" sample_metrics st2) = 2).
Proof.
  apply (decorate_metrics_around_cache identity None None sample_metrics
           [VNumber 5] (mkWorld 0) (mkWorld 0) (mkWorld 3) (VNumber 5) tt).
  - reflexivity.
  - discriminate.
Defined.

(** ** [throttle] *)

Lemma weak_get_set_same (r : nat) (t : Z) (m : list (nat * Z)) :
  weak_get r (weak_set r t m) = Some t.
Proof.
  induction m as [|[r0 t0] m IH]; simpl.
  - now rewrite Nat.eqb_refl.
  - destruct (Nat.eqb r0 r) eqn:E; simpl; now rewrite E.
Qed.

(** X27.  Throttling on one receiver.  A first call made when the clock
    reads at least [interval] invokes the base function and passes its
    outcome on; a call less than [interval] after it returns [undefined]
    and leaves the base function alone; a call [interval] or more after it
    invokes the base function again. *)
Theorem throttle_accepts_one_call_per_interval
    (f : Fn) (pk : string) (interval : Z) (r : nat)
    (a1 a2 a3 : list Val) (w1 w2 w3 : World) :
  interval <= clock w1 ->
  clock w2 - clock w1 < interval ->
  interval <= clock w3 - clock w1 ->
  let F := throttle (counted f) pk (Some interval) (Some r) in
  let b1 := fcall f a1 (finit f) w1 in
  let b3 := fcall f a3 (snd (fst b1)) w3 in
  exists st1 st3,
    fcall F a1 (finit F) w1 = (fst (fst b1), st1, snd b1)
    /\ snd st1 = (1, snd (fst b1))
    /\ fcall F a2 st1 w2 = (Return VUndefined, st1, w2)
    /\ fcall F a3 st1 w3 = (fst (fst b3), st3, snd b3)
    /\ snd st3 = (2, snd (fst b3)).
Proof.
  intros H1 H2 H3 F b1 b3. subst F b1 b3.
  destruct (fcall f a1 (finit f) w1) as [[o1 s1] w1'] eqn:B1.
  destruct (fcall f a3 s1 w3) as [[o3 s3] w3'] eqn:B3.
  assert (E1 : (clock w1 - 0 >=? interval) = true)
    by (apply Z.geb_le; lia).
  assert (E2 : (clock w2 - clock w1 >=? interval) = false).
  { rewrite Z.geb_leb. apply Z.leb_gt. lia. }
  assert (E3 : (clock w3 - clock w1 >=? interval) = true)
    by (apply Z.geb_le; lia).
  exists ([(r, clock w1)], (1, s1)).
  exists ([(r, clock w3)], (2, s3)).
  cbn. rewrite E1, B1. cbn. rewrite Nat.eqb_refl, E2, E3, B3. cbn.
  repeat split.
Qed.

Lemma throttle_accepts_one_call_per_interval_witness :
  let F := throttle (counted identity) "handleClick" (Some 100) (Some 7%nat) in
  let b1 := fcall identity [VString "click1"] tt (mkWorld 5000) in
  let b3 := fcall identity [VString "click4"] (snd (fst b1)) (mkWorld 5150) in
  exists st1 st3,
    fcall F [VString "click1"] (finit F) (mkWorld 5000)
    = (fst (fst b1), st1, snd b1)
    /\ snd st1 = (1, snd (fst b1))
    /\ fcall F [VString "click2"] st1 (mkWorld 5010)
       = (Return VUndefined, st1, mkWorld 5010)
    /\ fcall F [VString "click4"] st1 (mkWorld 5150)
       = (fst (fst b3), st3, snd b3)
    /\ snd st3 = (2, snd (fst b3)).
Proof.
  apply (throttle_accepts_one_call_per_interval identity "handleClick" 100
           7%nat [VString "click1"] [VString "click2"] [VString "click4"]
           (mkWorld 5000) (mkWorld 5010) (mkWorld 5150)); simpl; lia.
Defined.

(** X28.  Throttling without a receiver.  Called with [this] undefined, the
    throttled function never invokes the base function: in any state, a
    call either returns [undefined] (when the clock reads less than
    [interval]) or throws a [TypeError] on recording the call, and leaves
    the state as it was. *)
Theorem throttle_without_receiver_never_invokes
    (f : Fn) (pk : string) (interval : option Z) (args : list Val)
    (st : fstate (throttle (counted f) pk interval None)) (w : World) :
  let F := throttle (counted f) pk interval None in
  let limit := match interval with Some n => n | None => 1000 end in
  fcall F args st w
  = (if clock w - 0 >=? limit
     then Throw (TypeError "Invalid value used as weak map key")
     else Return VUndefined, st, w)
  /\ invocations f (snd (snd (fst (fcall F args st w))))
     = invocations f (snd st).
Proof.
  intros F limit. subst F limit. cbn.
  destruct (clock w - 0 >=? match interval with
                            | Some n => n
                            | None => 1000
                            end); split; reflexivity.
Qed.

(** ** [protect] and [inheritFrom] *)

(** X29.  What [protect] does with a failure of the base function.  At
    ['strict'] the value thrown is thrown again; at every other level name,
    ['loose'] and ['normal'] among them, the failure is swallowed and the
    call returns [undefined].  In both cases the base function has run
    once, on the arguments [protected_args] gives for the level, and one
    line is logged unless [silent] is set. *)
Theorem protect_swallows_below_strict
    (object_spread object_freeze : Val -> Val)
    (f : Fn) (pk : string) (level : string) (options : ProtectOptions)
    (args : list Val) (error : Val) (log : list LogLine) (n : Z)
    (s s' : fstate f) (w w' : World) :
  fcall f (protected_args object_spread (protection_level level) args) s w
  = (Throw error, s', w') ->
  let F := protect object_spread object_freeze (counted f) pk (Some level)
                   options in
  let written :=
    if match p_silent options with Some b => b | None => false end
    then log
    else (log ++ [{| log_level := "error";
                     log_text := "Protected method " ++ pk ++ " failed:";
                     log_value := error |}])%list in
  fcall F args (log, (n, s)) w
  = (if String.eqb level "strict" then Throw error else Return VUndefined,
     (written, (n + 1, s')), w').
Proof.
  intros Hf F written. subst F written. cbn. rewrite Hf. cbn.
  unfold protection_level.
  destruct (String.eqb level "loose") eqn:E1;
    [apply String.eqb_eq in E1; subst; reflexivity|].
  destruct (String.eqb level "normal") eqn:E2;
    [apply String.eqb_eq in E2; subst; reflexivity|].
  destruct (String.eqb level "strict"); [reflexivity|].
  destruct (existsb (String.eqb level) object_prototype_names); reflexivity.
Qed.

Lemma protect_swallows_below_strict_witness :
  let f := flaky 2 (Error "No data provided") (VString "ok") in
  let F := protect (fun v => v) (fun v => v) (counted f) "processData"
                   (Some "normal") {| p_silent := None |} in
  fcall F [VNumber 1] ([], (0, 0)) (mkWorld 0)
  = (if String.eqb "normal" "strict" then Throw (Error "No data provided")
     else Return VUndefined,
     (if match p_silent {| p_silent := None |} with
         | Some b => b
         | None => false
         end
      then []
      else ([] ++ [{| log_level := "error";
                      log_text := "Protected method " ++ "processData"
                                  ++ " failed:";
                      log_value := Error "No data provided" |}])%list,
      (0 + 1, 1)), mkWorld 0).
Proof.
  intros f.
  apply (protect_swallows_below_strict (fun v => v) (fun v => v) f
           "processData" "normal" {| p_silent := None |} [VNumber 1]
           (Error "No data provided") [] 0 0 1 (mkWorld 0) (mkWorld 0)).
  reflexivity.
Defined.

(** Which arguments are copied.  At ['normal'], ['strict'] and a level name
    [levels] does not have, object arguments are copied; at ['loose'] they
    are passed as they are, and so they are at a name [levels] inherits,
    such as ['toString'], where the level is a function that compares as
    no number. *)
Lemma protected_args_by_level (object_spread : Val -> Val)
    (args : list Val) :
  let copied :=
    map (fun arg => if is_object arg then object_spread arg else arg) args in
  protected_args object_spread (protection_level "normal") args = copied
  /\ protected_args object_spread (protection_level "strict") args = copied
  /\ protected_args object_spread (protection_level "careful") args = copied
  /\ protected_args object_spread (protection_level "loose") args = args
  /\ protected_args object_spread (protection_level "toString") args = args
  /\ protected_args object_spread (protection_level "constructor") args
     = args.
Proof. repeat split. Qed.

(** X30.  [inheritFrom] and its parent.  With [callParentFirst], the parent
    function runs first on the same arguments, and if it throws, the value
    is passed on and the base function is not invoked.  Without
    [mergeResults], the outcome of the call is the outcome of the base
    function, whatever the parent returned. *)
Theorem inherit_parent_runs_first
    (object_spread2 : Val -> Val -> Val)
    (f parent : Fn) (pk : string) (merge : option bool) (args : list Val)
    (sp : fstate parent) (n : Z) (s : fstate f) (w : World) :
  let F := fun m => inheritFrom object_spread2 (counted f) pk parent
                      {| i_mergeResults := m; i_callParentFirst := Some true;
                         i_inheritProperties := None |} in
  let p := fcall parent args sp w in
  (forall error, fst (fst p) = Throw error ->
     fcall (F merge) args (sp, (n, s)) w
     = (Throw error, (snd (fst p), (n, s)), snd p))
  /\ (forall parentResult, fst (fst p) = Return parentResult ->
        let b := fcall f args s (snd p) in
        fcall (F None) args (sp, (n, s)) w
        = (fst (fst b), (snd (fst p), (n + 1, snd (fst b))), snd b)).
Proof.
  intros F p. subst F p.
  destruct (fcall parent args sp w) as [[[r|e] sp'] w1] eqn:Hp; cbn; split.
  - intros error H. discriminate H.
  - intros parentResult _. rewrite Hp. cbn.
    destruct (fcall f args s w1) as [[[r'|e'] s'] w'] eqn:Hb; reflexivity.
  - intros error H. inversion H; subst. rewrite Hp. reflexivity.
  - intros parentResult H. discriminate H.
Qed.

Lemma inherit_parent_runs_first_witness :
  let parent := flaky 2 (Error "parent failed") (VString "parent") in
  let F := inheritFrom (fun a b => b) (counted identity) "child" parent
             {| i_mergeResults := None; i_callParentFirst := Some true;
                i_inheritProperties := None |} in
  fcall F [VString "x"] (0, (0, tt)) (mkWorld 0)
  = (Throw (Error "parent failed"), (1, (0, tt)), mkWorld 0)
  /\ fcall F [VString "x"] (1, (0, tt)) (mkWorld 0)
     = (Return (VString "x"), (2, (1, tt)), mkWorld 0).
Proof.
  intros parent F. split.
  - destruct (inherit_parent_runs_first (fun a b => b) identity parent
                "child" None [VString "x"] 0 0 tt (mkWorld 0)) as [H _].
    apply (H (Error "parent failed")). reflexivity.
  - destruct (inherit_parent_runs_first (fun a b => b) identity parent
                "child" None [VString "x"] 1 0 tt (mkWorld 0)) as [_ H].
    apply (H (VString "parent")). reflexivity.
Defined.
